(** * Garnet routing unit (hybrid wired / wireless)

    A shallow embedding of [src/garnet/RoutingUnit.cc]: the table router
    ([lookupRoutingTable]), the dimension-order router
    ([outportComputeXY]), the hybrid router ([outportComputeCustom]) and
    [supportsVnet], followed by the properties the specification states
    about them.

    Conventions of the embedding.
    - A C++ [int] is a [Z].  Signed overflow is undefined in C++, so no
      wrap-around is written out: the arithmetic of the model is the
      arithmetic of the source as long as no [int] operation overflows.
      The theorems that depend on it say so through [valid_id] (router ids
      are non-negative [int]s) and [hops_fit_int] (no sum of hops exceeds
      [INT_MAX]).  [%] and [/] truncate toward zero: [Z.rem] and [Z.quot].
    - [std::vector] is [list], indexed with stdpp's lookup; an index out of
      range through [operator[]] is undefined behaviour and is reported as
      [Halt Undefined].
    - [std::map<PortDirection,int>] is [gmap string Z]; reading it with
      [operator[]] is [dirn2idx_index], which returns the updated map too.
    - [fatal], [panic] and a failing [assert] stop the simulation: the
      functions return an [outcome].  Assertions are taken as compiled in.
    - Of a [RouteInfo] the routers read [vnet], [net_dest] and
      [dest_router]; these are passed as separate arguments.
    - Writing to [std::cout] is left out. *)

From Stdlib Require Import ZArith List Lia Bool Sorted.
From stdpp Require Import gmap strings list pretty.

Local Open Scope Z_scope.

(** ** Outcomes *)

Inductive failure : Type :=
  | NoRouteExists      (* fatal("Fatal Error:: No Route exists from this Router.") *)
  | AssertionFailed    (* assert(...) *)
  | Panic              (* panic("x_hops == y_hops == 0") *)
  | OutOfRange         (* std::vector::at throws std::out_of_range *)
  | Undefined.         (* undefined behaviour: division by zero, operator[] out of range *)

Inductive outcome (A : Type) : Type :=
  | Ret (a : A)
  | Halt (f : failure).

Arguments Ret {A} a.
Arguments Halt {A} f.

Definition bind {A B : Type} (c : outcome A) (k : A -> outcome B) : outcome B :=
  match c with
  | Ret a => k a
  | Halt f => Halt f
  end.

Notation "x <- c ;; k" := (bind c (fun x => k))
  (at level 100, c at next level, right associativity).

Definition assert (b : bool) : outcome unit :=
  if b then Ret tt else Halt AssertionFailed.

(** ** supportsVnet *)

(** [std::find(first, last, v)]: the position of the first element equal to
    [v], [None] standing for the end iterator. *)
Fixpoint std_find (l : list Z) (v : Z) : option nat :=
  match l with
  | [] => None
  | x :: rest => if x =? v then Some O else option_map S (std_find rest v)
  end.

Definition supportsVnet (vnet : Z) (sVnets : list Z) : bool :=
  (* If all vnets are supported, return true *)
  if (length sVnets =? 0)%nat then true
  else
    (* Find the vnet in the vector, return true *)
    match std_find sVnets vnet with
    | Some _ => true
    | None => false  (* Not supported vnet *)
    end.

(** ** The table router *)

Section TableRouter.

(** [NetDest] and its [intersectionIsNotEmpty] come from the message layer
    ([NetDest.hh]); [INFINITE_] is a macro of [CommonTypes.hh];
    [isVNetOrdered] is answered by the network.  None of them is defined in
    [RoutingUnit.cc], so they are parameters here. *)
Variable NetDest : Type.
Variable intersectionIsNotEmpty : NetDest -> NetDest -> bool.
Variable INFINITE_ : Z.
Variable isVNetOrdered : Z -> bool.

Variable m_routing_table : list (list NetDest).
Variable m_weight_table : list Z.

(** [addRoute] and [addWeight], which build the two tables. *)
Fixpoint push_entries (table : list (list NetDest)) (entry : list NetDest)
  : list (list NetDest) :=
  match table, entry with
  | row :: table', e :: entry' => (row ++ [e]) :: push_entries table' entry'
  | table, [] => table
  | [], e :: entry' => [e] :: push_entries [] entry'
  end.

Definition addRoute (routing_table_entry : list NetDest) : list (list NetDest) :=
  push_entries m_routing_table routing_table_entry.

Definition addWeight (link_weight : Z) : list Z :=
  m_weight_table ++ [link_weight].

Section Lookup.

Variable msg_destination : NetDest.

(** First loop: the minimum weight among the candidate output links.
    [link] is the index of the head of [row] in the whole row. *)
Fixpoint min_weight_loop (row : list NetDest) (link : nat) (min_weight : Z)
  : outcome Z :=
  match row with
  | [] => Ret min_weight
  | entry :: rest =>
      if intersectionIsNotEmpty msg_destination entry then
        match m_weight_table !! link with
        | None => Halt Undefined
        | Some w =>
            min_weight_loop rest (S link)
              (if w <=? min_weight then w else min_weight)
        end
      else min_weight_loop rest (S link) min_weight
  end.

(** Second loop: the candidate output links with this minimum weight,
    together with the counter [num_candidates]. *)
Fixpoint collect_loop (row : list NetDest) (link : nat) (min_weight : Z)
    (num_candidates : Z) (output_link_candidates : list nat)
  : outcome (Z * list nat) :=
  match row with
  | [] => Ret (num_candidates, output_link_candidates)
  | entry :: rest =>
      if intersectionIsNotEmpty msg_destination entry then
        match m_weight_table !! link with
        | None => Halt Undefined
        | Some w =>
            if w =? min_weight then
              collect_loop rest (S link) min_weight
                (num_candidates + 1) (output_link_candidates ++ [link])
            else
              collect_loop rest (S link) min_weight
                num_candidates output_link_candidates
        end
      else
        collect_loop rest (S link) min_weight
          num_candidates output_link_candidates
  end.

(** [lookupRoutingTable(vnet, msg_destination)].  [rnd] is the value
    [rand()] yields if it is called (between 0 and RAND_MAX). *)
Definition lookupRoutingTable (vnet : Z) (rnd : Z) : outcome Z :=
  match (if vnet <? 0 then None else m_routing_table !! Z.to_nat vnet) with
  | None => Halt Undefined
  | Some row =>
      min_weight <- min_weight_loop row 0 INFINITE_ ;;
      cs <- collect_loop row 0 min_weight 0 [] ;;
      let '(num_candidates, output_link_candidates) := cs in
      if (length output_link_candidates =? 0)%nat then Halt NoRouteExists
      else
        (* Randomly select any candidate output link *)
        let candidate :=
          if negb (isVNetOrdered vnet) then Z.rem rnd num_candidates else 0 in
        match (if candidate <? 0 then None
               else output_link_candidates !! Z.to_nat candidate) with
        | None => Halt OutOfRange
        | Some output_link => Ret (Z.of_nat output_link)
        end
  end.

End Lookup.

End TableRouter.

(** ** Port directions *)

(** [m_outports_dirn2idx[dirn]] read through [std::map::operator[]]: a
    direction that has no entry is inserted with a value-initialised [int]
    (zero), and that zero is what the read yields. *)
Definition dirn2idx_index (m : gmap string Z) (dirn : string) : Z * gmap string Z :=
  match m !! dirn with
  | Some idx => (idx, m)
  | None => (0, <[dirn := 0]> m)
  end.

(** [addOutDirection], restricted to the direction-to-index map. *)
Definition addOutDirection (m : gmap string Z) (outport_dirn : string)
    (outport_idx : Z) : gmap string Z :=
  <[outport_dirn := outport_idx]> m.

(** ** The dimension-order router *)

Section Mesh.

Variable num_rows num_cols : Z.   (* getNumRows(), getNumCols() *)
Variable my_id : Z.               (* m_router->get_id() *)

Definition col_of (id : Z) : Z := Z.rem id num_cols.    (* id % num_cols *)
Definition row_of (id : Z) : Z := Z.quot id num_cols.   (* id / num_cols *)

(** The part of [outportComputeXY] that settles [outport_dirn].  The
    differences and [abs] are those of the source for router ids that are
    non-negative [int]s ([valid_id]); a negative id such as [INT_MIN] can
    overflow them in the source. *)
Definition xy_outport_dirn (dest_id : Z) (inport_dirn : string) : outcome string :=
  _ <- assert ((num_rows >? 0) && (num_cols >? 0)) ;;
  let my_x := col_of my_id in
  let my_y := row_of my_id in
  let dest_x := col_of dest_id in
  let dest_y := row_of dest_id in
  let x_hops := Z.abs (dest_x - my_x) in
  let y_hops := Z.abs (dest_y - my_y) in
  let x_dirn := dest_x >=? my_x in
  let y_dirn := dest_y >=? my_y in
  (* already checked that in outportCompute() function *)
  _ <- assert (negb ((x_hops =? 0) && (y_hops =? 0))) ;;
  if x_hops >? 0 then
    if x_dirn then
      _ <- assert (String.eqb inport_dirn "Local" || String.eqb inport_dirn "West"
                   || String.eqb inport_dirn "Wireless_In") ;;
      Ret "East"%string
    else
      _ <- assert (String.eqb inport_dirn "Local" || String.eqb inport_dirn "East"
                   || String.eqb inport_dirn "Wireless_In") ;;
      Ret "West"%string
  else if y_hops >? 0 then
    if y_dirn then
      _ <- assert (negb (String.eqb inport_dirn "North")) ;;
      Ret "North"%string
    else
      _ <- assert (negb (String.eqb inport_dirn "South")) ;;
      Ret "South"%string
  else Halt Panic.

(** [outportComputeXY(route, inport, inport_dirn)]; of [route] only
    [dest_router] is read, and [inport] is not read at all. *)
Definition outportComputeXY (dest_id : Z) (inport_dirn : string)
    (m_outports_dirn2idx : gmap string Z) : outcome (Z * gmap string Z) :=
  outport_dirn <- xy_outport_dirn dest_id inport_dirn ;;
  Ret (dirn2idx_index m_outports_dirn2idx outport_dirn).

(** ** The hybrid router *)

(** The lambda [calculateHops]. *)
Definition calculateHops (src_id dst_id : Z) : Z :=
  let src_x := Z.rem src_id num_cols in
  let src_y := Z.quot src_id num_cols in
  let dst_x := Z.rem dst_id num_cols in
  let dst_y := Z.quot dst_id num_cols in
  Z.abs (dst_x - src_x) + Z.abs (dst_y - src_y).

(** [std::numeric_limits<int>::max()] for the 32-bit [int]. *)
Definition INT_MAX : Z := 2147483647.

(** The test [my_id == 18 || my_id == 45 || my_id == 50 || my_id == 21]. *)
Definition at_hybrid_router : bool :=
  (my_id =? 18) || (my_id =? 45) || (my_id =? 50) || (my_id =? 21).

(** [hybrid_connections] is a [std::unordered_map<int, std::vector<int>>];
    it is given as the list of its entries in the order the range-for
    visits them (keys are pairwise different).  [hybrid_connections[id]]
    yields the empty vector for an absent key. *)
Fixpoint connections_index (hybrid_connections : list (Z * list Z)) (id : Z)
  : list Z :=
  match hybrid_connections with
  | [] => []
  | (k, v) :: rest => if k =? id then v else connections_index rest id
  end.

(** The three variables the search loops update. *)
Record search : Type := Search {
  hybrid_hops : Z;
  best_hybrid_router : Z;
  dest_hybrid_router : Z
}.

Definition search_init : search := Search INT_MAX (-1) (-1).

(** Body of the loop taken at a hybrid router.  [hops] is the source's
    [int] sum as long as it does not exceed [INT_MAX] ([hops_fit_int]). *)
Definition hub_body (dest_id : Z) (s : search) (connected_router : Z) : search :=
  let hops := calculateHops connected_router dest_id + 1 in
  if hops <? hybrid_hops s then Search hops connected_router connected_router
  else s.

(** Body of the inner loop taken elsewhere.  [total_hops] is the source's
    [int] sum as long as it does not exceed [INT_MAX] ([hops_fit_int]). *)
Definition pair_body (dest_id hybrid_router hops_to_hybrid : Z) (s : search)
    (connected_router : Z) : search :=
  let total_hops := hops_to_hybrid + 1 + calculateHops connected_router dest_id in
  if total_hops <? hybrid_hops s then Search total_hops hybrid_router connected_router
  else s.

(** Body of the outer loop taken elsewhere. *)
Definition entry_body (dest_id : Z) (s : search) (entry : Z * list Z) : search :=
  let hybrid_router := fst entry in
  let hops_to_hybrid := calculateHops my_id hybrid_router in
  fold_left (pair_body dest_id hybrid_router hops_to_hybrid) (snd entry) s.

Definition hybrid_search (hybrid_connections : list (Z * list Z)) (dest_id : Z)
  : search :=
  if at_hybrid_router then
    fold_left (hub_body dest_id) (connections_index hybrid_connections my_id)
      search_init
  else
    fold_left (entry_body dest_id) hybrid_connections search_init.

(** Direction toward the nearest hybrid router. *)
Definition toward_dirn (target : Z) : string :=
  let my_x := Z.rem my_id num_cols in
  let my_y := Z.quot my_id num_cols in
  let next_x := Z.rem target num_cols in
  let next_y := Z.quot target num_cols in
  if next_x >? my_x then "East"
  else if next_x <? my_x then "West"
  else if next_y >? my_y then "North"
  else if next_y <? my_y then "South"
  else "Unknown".

(** The direction of the wireless egress: ["Wireless_Out"+std::to_string(id)]. *)
Definition wireless_out_dirn (id : Z) : string := "Wireless_Out" +:+ pretty id.

(** [outportComputeCustom(route, inport, inport_dirn)].  The first division
    by [num_cols] is undefined for [num_cols == 0]. *)
Definition outportComputeCustom (hybrid_connections : list (Z * list Z))
    (dest_id : Z) (inport_dirn : string) (m_outports_dirn2idx : gmap string Z)
  : outcome ((Z * Z) * gmap string Z) :=
  if num_cols =? 0 then Halt Undefined
  else
    (* Calculate hops for XY routing *)
    let xy_hops := calculateHops my_id dest_id in
    (* Calculate hops for hybrid routing *)
    let s := hybrid_search hybrid_connections dest_id in
    (* Choose the routing method with fewer hops *)
    if hybrid_hops s <? xy_hops then
      (* Use hybrid routing *)
      if at_hybrid_router then
        let dir := wireless_out_dirn (dest_hybrid_router s) in
        let '(port, m') := dirn2idx_index m_outports_dirn2idx dir in
        Ret ((port, dest_hybrid_router s), m')
      else
        (* Route towards the nearest hybrid router *)
        let outport_dirn := toward_dirn (best_hybrid_router s) in
        let '(port, m') := dirn2idx_index m_outports_dirn2idx outport_dirn in
        Ret ((port, dest_hybrid_router s), m')
    else
      pm <- outportComputeXY dest_id inport_dirn m_outports_dirn2idx ;;
      Ret ((fst pm, -1), snd pm).

End Mesh.

(** * Notions used to state the properties *)

(** ** Candidates of a table lookup *)

Section TableSpec.

Variable NetDest : Type.
Variable intersectionIsNotEmpty : NetDest -> NetDest -> bool.
Variable m_weight_table : list Z.

(** [link] is a candidate of [row] for [dest] with weight [w]. *)
Definition candidate (row : list NetDest) (dest : NetDest) (link : nat) (w : Z)
  : Prop :=
  exists entry, row !! link = Some entry
    /\ intersectionIsNotEmpty dest entry = true
    /\ m_weight_table !! link = Some w.

Definition min_candidate (row : list NetDest) (dest : NetDest) (link : nat) (w : Z)
  : Prop :=
  candidate row dest link w
  /\ forall q wq, candidate row dest q wq -> w <= wq.

Definition first_min_candidate (row : list NetDest) (dest : NetDest) (link : nat)
    (w : Z) : Prop :=
  min_candidate row dest link w
  /\ forall q, (q < link)%nat -> ~ candidate row dest q w.

End TableSpec.

(** A sample [NetDest]: destination sets as bit masks, two of which intersect
    when they share a bit. *)
Definition mask_intersects (a b : Z) : bool := negb (Z.land a b =? 0).

(** ** Mesh geometry used to state the routing properties *)

(** Column and row of a router, as the routers decode them. *)
Definition coords (num_cols id : Z) : Z * Z := (Z.rem id num_cols, Z.quot id num_cols).

Definition manhattan (p q : Z * Z) : Z :=
  Z.abs (fst q - fst p) + Z.abs (snd q - snd p).

(** One step in a port direction: East and West change the column, North and
    South the row; any other direction leaves the position. *)
Definition move (dirn : string) (p : Z * Z) : Z * Z :=
  if String.eqb dirn "East" then (fst p + 1, snd p)
  else if String.eqb dirn "West" then (fst p - 1, snd p)
  else if String.eqb dirn "North" then (fst p, snd p + 1)
  else if String.eqb dirn "South" then (fst p, snd p - 1)
  else p.

(** The direction the specification describes for a step from [p] toward
    [q]: horizontal whenever the columns differ, otherwise vertical. *)
Definition dirn_toward (p q : Z * Z) : string :=
  if negb (fst q =? fst p) then (if fst q >=? fst p then "East" else "West")
  else (if snd q >=? snd p then "North" else "South").

(** The assertion on the inbound direction that guards each outbound
    direction of the dimension-order router. *)
Definition inport_allowed (outport_dirn inport_dirn : string) : bool :=
  if String.eqb outport_dirn "East" then
    String.eqb inport_dirn "Local" || String.eqb inport_dirn "West"
    || String.eqb inport_dirn "Wireless_In"
  else if String.eqb outport_dirn "West" then
    String.eqb inport_dirn "Local" || String.eqb inport_dirn "East"
    || String.eqb inport_dirn "Wireless_In"
  else negb (String.eqb inport_dirn outport_dirn).

(** Router ids that fit a non-negative [int]. *)
Definition valid_id (id : Z) : Prop := 0 <= id <= INT_MAX.

(** ** Single-wireless-hop paths *)

(** All pairs (entry hub, exit hub) of the hub-adjacency mapping. *)
Definition all_pairs (hybrid_connections : list (Z * list Z)) : list (Z * Z) :=
  flat_map (fun entry => map (fun h2 => (fst entry, h2)) (snd entry))
    hybrid_connections.

(** Hops of the path: wired to [h1], one wireless hop to [h2], wired to the
    destination. *)
Definition wireless_path_hops (num_cols my_id dest_id : Z) (p : Z * Z) : Z :=
  calculateHops num_cols my_id (fst p) + 1 + calculateHops num_cols (snd p) dest_id.

(** [id] is a hub of the configured mapping: it has an entry there. *)
Definition configured_hub (hybrid_connections : list (Z * list Z)) (id : Z) : Prop :=
  exists entry, In entry hybrid_connections /\ fst entry = id.

(** The inner loop body of the search, on a pair of the mapping. *)
Definition pair_step (num_cols my_id dest_id : Z) (s : search) (p : Z * Z) : search :=
  pair_body num_cols dest_id (fst p) (calculateHops num_cols my_id (fst p)) s (snd p).

(** Hops from a hub over its own wireless link to [h] and on to the
    destination. *)
Definition egress_hops (num_cols dest_id h : Z) : Z :=
  calculateHops num_cols h dest_id + 1.

Definition is_minimum (m : Z) (costs : list Z) : Prop :=
  In m costs /\ forall c, In c costs -> m <= c.

(** The minimum of [costs], or [INT_MAX] when nothing in [costs] is below it. *)
Definition is_capped_minimum (m : Z) (costs : list Z) : Prop :=
  m <= INT_MAX /\ (forall c, In c costs -> m <= c) /\ (In m costs \/ m = INT_MAX).

(** The result of the hybrid branch of [outportComputeCustom]. *)
Definition hybrid_route (num_cols my_id : Z) (hybrid_connections : list (Z * list Z))
    (dest_id : Z) (m : gmap string Z) : (Z * Z) * gmap string Z :=
  let s := hybrid_search num_cols my_id hybrid_connections dest_id in
  let dirn :=
    if at_hybrid_router my_id then wireless_out_dirn (dest_hybrid_router s)
    else toward_dirn num_cols my_id (best_hybrid_router s) in
  let pm := dirn2idx_index m dirn in
  ((fst pm, dest_hybrid_router s), snd pm).

(** The result of the wired branch: the port of [outportComputeXY] with
    [-1] for the shortcut hub. *)
Definition wired_route (num_rows num_cols my_id dest_id : Z) (inport_dirn : string)
    (m : gmap string Z) : outcome ((Z * Z) * gmap string Z) :=
  pm <- outportComputeXY num_rows num_cols my_id dest_id inport_dirn m ;;
  Ret ((fst pm, -1), snd pm).

(** ** Sample configurations *)

(** The ports of a router of the mesh with a wireless egress toward hub 10. *)
Definition sample_ports : gmap string Z :=
  list_to_map [("Local", 0); ("East", 1); ("West", 2); ("North", 3);
               ("Wireless_Out10", 5)]%string.

(** Hubs 21 and 45 with one wireless link each, on a mesh of 8 columns. *)
Definition sample_links : list (Z * list Z) := [(21, [18]); (45, [50])].

(** The four hubs, fully connected. *)
Definition full_links : list (Z * list Z) :=
  [(18, [45; 50; 21]); (45, [18; 50; 21]); (50, [45; 18; 21]); (21, [45; 50; 18])].

(** ** Calls whose hop counts fit an [int] *)

(** The router ids of the call and of the mapping are non-negative [int]s,
    and no sum of hops the search can form (wired to an entry hub, one
    wireless hop, wired from the exit hub to the destination) exceeds
    [INT_MAX]: on such calls, with [num_cols > 0], no [int] operation of
    [outportComputeCustom] overflows.  The sum a hub forms for a hub [h] of
    its own list is the sum of the pair (hub, [h]). *)
Definition hops_fit_int (num_cols my_id dest_id : Z)
    (hybrid_connections : list (Z * list Z)) : Prop :=
  valid_id my_id /\ valid_id dest_id
  /\ (forall entry, In entry hybrid_connections -> valid_id (fst entry))
  /\ (forall p, In p (all_pairs hybrid_connections) ->
        valid_id (snd p)
        /\ wireless_path_hops num_cols my_id dest_id p <= INT_MAX).

(** * The rest of the routing unit *)

(** ** Registration of ports *)

(** [addOutDirection], the index-to-direction map [m_outports_idx2dirn]. *)
Definition addOutDirection_idx2dirn (m : gmap Z string) (outport_dirn : string)
    (outport_idx : Z) : gmap Z string :=
  <[outport_idx := outport_dirn]> m.

(** [addOutDirection] on both maps of the outports. *)
Definition addOutDirection_maps (maps : gmap string Z * gmap Z string)
    (outport_dirn : string) (outport_idx : Z) : gmap string Z * gmap Z string :=
  (addOutDirection (fst maps) outport_dirn outport_idx,
   addOutDirection_idx2dirn (snd maps) outport_dirn outport_idx).

(** [addInDirection] on both maps of the inports, [m_inports_dirn2idx] and
    [m_inports_idx2dirn]. *)
Definition addInDirection (maps : gmap string Z * gmap Z string)
    (inport_dirn : string) (inport_idx : Z) : gmap string Z * gmap Z string :=
  (<[inport_dirn := inport_idx]> (fst maps), <[inport_idx := inport_dirn]> (snd maps)).

(** The two maps of a port set name each other's entries. *)
Definition inverse_maps (maps : gmap string Z * gmap Z string) : Prop :=
  forall dirn idx, fst maps !! dirn = Some idx <-> snd maps !! idx = Some dirn.

(** ** The dispatcher *)

(** Modelled from the spec: the enumeration [RoutingAlgorithm] is declared in
    [CommonTypes.hh]; the switch of [outportCompute] names its values
    [TABLE_], [XY_] and [CUSTOM_], and any other value ([OTHER_]) reaches
    [default]. *)
Inductive RoutingAlgorithm : Type := TABLE_ | XY_ | CUSTOM_ | OTHER_.

Section Dispatch.

Variable NetDest : Type.
Variable intersectionIsNotEmpty : NetDest -> NetDest -> bool.
Variable INFINITE_ : Z.
Variable isVNetOrdered : Z -> bool.
Variable m_routing_table : list (list NetDest).
Variable m_weight_table : list Z.
Variable num_rows num_cols my_id : Z.
Variable routing_algorithm : RoutingAlgorithm.   (* getRoutingAlgorithm() *)
Variable hybrid_connections : list (Z * list Z).

(** [outportCompute(route, inport, inport_dirn)], with the fields of [route]
    as [vnet], [net_dest] and [dest_router]. *)
Definition outportCompute (vnet : Z) (net_dest : NetDest) (dest_router : Z)
    (inport_dirn : string) (rnd : Z) (m_outports_dirn2idx : gmap string Z)
  : outcome ((Z * Z) * gmap string Z) :=
  let table_lookup :=
    lookupRoutingTable NetDest intersectionIsNotEmpty INFINITE_ isVNetOrdered
      m_routing_table m_weight_table net_dest vnet rnd in
  if dest_router =? my_id then
    (* Multiple NIs may be connected to this router,
       all with output port direction = "Local"
       Get exact outport id from table *)
    outport <- table_lookup ;;
    Ret ((outport, -1), m_outports_dirn2idx)
  else
    r <- match routing_algorithm with
         | TABLE_ =>
             outport <- table_lookup ;;
             Ret ((outport, -1), m_outports_dirn2idx)
         | XY_ =>
             pm <- outportComputeXY num_rows num_cols my_id dest_router
                     inport_dirn m_outports_dirn2idx ;;
             Ret ((fst pm, -1), snd pm)
         | CUSTOM_ =>
             outportComputeCustom num_rows num_cols my_id hybrid_connections
               dest_router inport_dirn m_outports_dirn2idx
         | OTHER_ =>
             outport <- table_lookup ;;
             Ret ((outport, -1), m_outports_dirn2idx)
         end ;;
    _ <- assert (negb (fst (fst r) =? -1)) ;;
    Ret r.

End Dispatch.

(** ** Walking a packet along the dimension-order route *)

(** The router one step away in a direction, in the numbering the routers
    decode: columns count along a row, rows are [num_cols] apart. *)
Definition neighbour (num_cols id : Z) (dirn : string) : Z :=
  if String.eqb dirn "East" then id + 1
  else if String.eqb dirn "West" then id - 1
  else if String.eqb dirn "North" then id + num_cols
  else if String.eqb dirn "South" then id - num_cols
  else id.

(** The inport through which a packet enters the next router after leaving
    in direction [dirn]. *)
Definition opposite (dirn : string) : string :=
  if String.eqb dirn "East" then "West"
  else if String.eqb dirn "West" then "East"
  else if String.eqb dirn "North" then "South"
  else if String.eqb dirn "South" then "North"
  else dirn.

(** At most [fuel] hops of a packet for [dest_id], each settled by
    [xy_outport_dirn] at the router the packet is in: the router reached and
    the directions taken. *)
Fixpoint xy_walk (fuel : nat) (num_rows num_cols my_id dest_id : Z)
    (inport_dirn : string) : outcome (Z * list string) :=
  match fuel with
  | O => Ret (my_id, [])
  | S fuel' =>
      if my_id =? dest_id then Ret (my_id, [])
      else
        d <- xy_outport_dirn num_rows num_cols my_id dest_id inport_dirn ;;
        r <- xy_walk fuel' num_rows num_cols (neighbour num_cols my_id d) dest_id
               (opposite d) ;;
        Ret (fst r, d :: snd r)
  end.

(** Routers of a mesh of [num_rows] rows and [num_cols] columns. *)
Definition in_mesh (num_rows num_cols id : Z) : Prop :=
  0 <= id < num_rows * num_cols.

(** * Properties *)

(** ** The table router *)

Section TableFacts.

Variable NetDest : Type.
Variable intersectionIsNotEmpty : NetDest -> NetDest -> bool.
Variable INFINITE_ : Z.
Variable isVNetOrdered : Z -> bool.
Variable m_routing_table : list (list NetDest).
Variable m_weight_table : list Z.
Variable dest : NetDest.

Local Abbreviation inter := (intersectionIsNotEmpty dest).
Local Abbreviation loop1 := (min_weight_loop NetDest intersectionIsNotEmpty m_weight_table dest).
Local Abbreviation loop2 := (collect_loop NetDest intersectionIsNotEmpty m_weight_table dest).

Lemma min_weight_loop_spec (row : list NetDest) :
  forall (k : nat) (m : Z),
    (k + length row <= length m_weight_table)%nat ->
    exists m',
      loop1 row k m = Ret m'
      /\ m' <= m
      /\ (forall i e w, row !! i = Some e -> inter e = true ->
            m_weight_table !! (k + i)%nat = Some w -> m' <= w)
      /\ (m' = m \/
          exists i e, row !! i = Some e /\ inter e = true
                      /\ m_weight_table !! (k + i)%nat = Some m').
Proof.
  induction row as [|entry rest IH]; intros k m Hlen; simpl in *.
  - exists m. split; [reflexivity|]. split; [lia|]. split; [|by left].
    intros i e w Hi. by rewrite lookup_nil in Hi.
  - destruct (inter entry) eqn:Hin.
    + destruct (lookup_lt_is_Some_2 m_weight_table k ltac:(lia)) as [w Hw].
      rewrite Hw.
      destruct (IH (S k) (if w <=? m then w else m) ltac:(lia))
        as (m' & Hrun & Hle & Hlow & Hatt).
      exists m'. split; [exact Hrun|].
      assert (Hm : m' <= m /\ m' <= w) by (destruct (Z.leb_spec w m); lia).
      split; [lia|]. split.
      * intros [|i] e w' Hi Hie Hwi; simpl in Hi.
        -- replace (k + 0)%nat with k in Hwi by lia.
           assert (w' = w) by congruence. lia.
        -- apply (Hlow i e w' Hi Hie).
           by replace (S k + i)%nat with (k + S i)%nat by lia.
      * destruct Hatt as [Heq | (i & e & Hi & Hie & Hwi)].
        -- destruct (Z.leb_spec w m).
           ++ right. exists O, entry. simpl.
              replace (k + 0)%nat with k by lia. subst m'. done.
           ++ by left.
        -- right. exists (S i), e. simpl.
           by replace (k + S i)%nat with (S k + i)%nat by lia.
    + destruct (IH (S k) m ltac:(lia)) as (m' & Hrun & Hle & Hlow & Hatt).
      exists m'. split; [exact Hrun|]. split; [lia|]. split.
      * intros [|i] e w' Hi Hie Hwi; simpl in Hi.
        -- congruence.
        -- apply (Hlow i e w' Hi Hie).
           by replace (S k + i)%nat with (k + S i)%nat by lia.
      * destruct Hatt as [Heq | (i & e & Hi & Hie & Hwi)]; [by left|].
        right. exists (S i), e. simpl.
        by replace (k + S i)%nat with (S k + i)%nat by lia.
Qed.

Lemma collect_loop_spec (row : list NetDest) (mw : Z) :
  forall (k : nat) (n : Z) (acc : list nat),
    (k + length row <= length m_weight_table)%nat ->
    exists l,
      loop2 row k mw n acc = Ret (n + Z.of_nat (length l), acc ++ l)
      /\ (forall x, x ∈ l <->
            exists i e, x = (k + i)%nat /\ row !! i = Some e /\ inter e = true
                        /\ m_weight_table !! x = Some mw)
      /\ StronglySorted lt l.
Proof.
  induction row as [|entry rest IH]; intros k n acc Hlen; simpl in *.
  - exists []. rewrite app_nil_r, Z.add_0_r. split; [done|]. split; [|constructor].
    intros x. split; [by intros ?%elem_of_nil|].
    intros (i & e & _ & Hi & _). by rewrite lookup_nil in Hi.
  - assert (Hshift : forall l : list nat,
      (forall x, x ∈ l <->
         exists i e, x = (S k + i)%nat /\ rest !! i = Some e /\ inter e = true
                     /\ m_weight_table !! x = Some mw) ->
      forall x, x ∈ l <->
         exists i e, x = (k + S i)%nat /\ rest !! i = Some e /\ inter e = true
                     /\ m_weight_table !! x = Some mw).
    { intros l Hl x. rewrite Hl. split; intros (i & e & -> & H); exists i, e;
        (split; [lia|]); by replace (k + S i)%nat with (S k + i)%nat in * by lia. }
    destruct (inter entry) eqn:Hin.
    + destruct (lookup_lt_is_Some_2 m_weight_table k ltac:(lia)) as [w Hw].
      rewrite Hw. destruct (Z.eqb_spec w mw) as [->|Hne].
      * destruct (IH (S k) (n + 1) (acc ++ [k]) ltac:(lia)) as (l & Hrun & Hmem & Hsort).
        exists (k :: l). rewrite Hrun. split.
        { f_equal. f_equal; [simpl length; lia|]. by rewrite <- app_assoc. }
        pose proof (Hshift _ Hmem) as Hmem'; clear Hmem; rename Hmem' into Hmem. split.
        -- intros x. rewrite elem_of_cons, Hmem. split.
           ++ intros [-> | (i & e & -> & Hi & Hie & Hwi)].
              ** exists O, entry. simpl. replace (k + 0)%nat with k by lia. done.
              ** by exists (S i), e.
           ++ intros ([|i] & e & -> & Hi & Hie & Hwi).
              ** left. lia.
              ** right. by exists i, e.
        -- constructor; [exact Hsort|]. apply Forall_forall. intros x Hx.
           apply Hmem in Hx as (i & e & -> & _). lia.
      * destruct (IH (S k) n acc ltac:(lia)) as (l & Hrun & Hmem & Hsort).
        exists l. split; [exact Hrun|]. split; [|exact Hsort].
        pose proof (Hshift _ Hmem) as Hmem'; clear Hmem; rename Hmem' into Hmem. intros x. rewrite Hmem. split.
        -- intros (i & e & -> & Hi & Hie & Hwi). by exists (S i), e.
        -- intros ([|i] & e & -> & Hi & Hie & Hwi).
           ++ replace (k + 0)%nat with k in Hwi by lia. congruence.
           ++ by exists i, e.
    + destruct (IH (S k) n acc ltac:(lia)) as (l & Hrun & Hmem & Hsort).
      exists l. split; [exact Hrun|]. split; [|exact Hsort].
      pose proof (Hshift _ Hmem) as Hmem'; clear Hmem; rename Hmem' into Hmem. intros x. rewrite Hmem. split.
      -- intros (i & e & -> & Hi & Hie & Hwi). by exists (S i), e.
      -- intros ([|i] & e & -> & Hi & Hie & Hwi).
         ++ simpl in Hi. congruence.
         ++ by exists i, e.
Qed.

Local Abbreviation lookup :=
  (lookupRoutingTable NetDest intersectionIsNotEmpty INFINITE_ isVNetOrdered
     m_routing_table m_weight_table dest).
Local Abbreviation cand := (candidate NetDest intersectionIsNotEmpty m_weight_table).

(** What a call of [lookupRoutingTable] on an existing row computes: the
    minimum weight [mw], the list [l] of candidates and the final pick. *)
Lemma lookup_shape (vnet : Z) (row : list NetDest) :
  0 <= vnet ->
  m_routing_table !! Z.to_nat vnet = Some row ->
  (length row <= length m_weight_table)%nat ->
  exists (mw : Z) (l : list nat),
    mw <= INFINITE_
    /\ (forall x, x ∈ l <-> cand row dest x mw)
    /\ (forall q wq, cand row dest q wq -> mw <= wq)
    /\ StronglySorted lt l
    /\ (l = [] <-> ~ exists q wq, cand row dest q wq /\ wq <= INFINITE_)
    /\ forall rnd,
         lookup vnet rnd =
         if (length l =? 0)%nat then Halt NoRouteExists
         else
           let c := if negb (isVNetOrdered vnet)
                    then Z.rem rnd (Z.of_nat (length l)) else 0 in
           match (if c <? 0 then None else l !! Z.to_nat c) with
           | None => Halt OutOfRange
           | Some output_link => Ret (Z.of_nat output_link)
           end.
Proof.
  intros Hv Hrow Hlen.
  destruct (min_weight_loop_spec row 0 INFINITE_ ltac:(simpl; lia))
    as (mw & Hrun1 & Hle & Hlow & Hatt).
  destruct (collect_loop_spec row mw 0 0 [] ltac:(simpl; lia))
    as (l & Hrun2 & Hmem & Hsort).
  assert (Hmem' : forall x, x ∈ l <-> cand row dest x mw).
  { intros x. rewrite Hmem. unfold candidate. split.
    - intros (i & e & -> & Hi & Hie & Hw). by exists e.
    - intros (e & Hi & Hie & Hw). by exists x, e. }
  assert (Hlow' : forall q wq, cand row dest q wq -> mw <= wq).
  { intros q wq (e & Hi & Hie & Hw). by apply (Hlow q e wq). }
  exists mw, l.
  split; [exact Hle|]. split; [exact Hmem'|]. split; [exact Hlow'|].
  split; [exact Hsort|]. split; [split|].
  - intros -> (q & wq & Hc & Hq).
    assert (cand row dest q mw \/ exists q', cand row dest q' mw) as Hex.
    { destruct Hatt as [-> | (i & e & Hi & Hie & Hw)].
      - left. pose proof (Hlow' _ _ Hc). by replace INFINITE_ with wq by lia.
      - right. exists i, e. done. }
    destruct Hex as [Hx | [q' Hx]]; apply Hmem' in Hx; by apply elem_of_nil in Hx.
  - intros Hno. destruct l as [|x l']; [done|]. exfalso. apply Hno.
    exists x, mw. split; [|lia]. apply Hmem'. by left.
  - intros rnd. unfold lookupRoutingTable.
    destruct (Z.ltb_spec vnet 0); [lia|]. rewrite Hrow. simpl.
    rewrite Hrun1. simpl. rewrite Hrun2. simpl. reflexivity.
Qed.

(** Picking a member of the candidate list by [rand() % num_candidates]. *)
Lemma pick_in_range (l : list nat) (rnd : Z) :
  l <> [] -> 0 <= rnd ->
  exists x, l !! Z.to_nat (Z.rem rnd (Z.of_nat (length l))) = Some x
            /\ (Z.rem rnd (Z.of_nat (length l)) <? 0) = false.
Proof.
  intros Hne Hr.
  assert (0 < Z.of_nat (length l)) by (destruct l; [done | simpl length; lia]).
  pose proof (Z.rem_bound_pos rnd (Z.of_nat (length l)) Hr ltac:(lia)) as [H0 H1].
  destruct (lookup_lt_is_Some_2 l (Z.to_nat (Z.rem rnd (Z.of_nat (length l))))
              ltac:(lia)) as [x Hx].
  exists x. split; [exact Hx|]. by apply Z.ltb_ge.
Qed.

(** C4 (as amended): when some registered port whose mask intersects the
    destination has a weight of at most [INFINITE_] (row valid, weights
    covering it), [lookupRoutingTable] returns a port whose stored mask
    intersects the destination and whose weight is the minimum weight among
    all ports whose mask intersects it. *)
Theorem lookup_returns_min_weight_candidate
    (vnet : Z) (row : list NetDest) (rnd : Z) :
  0 <= vnet ->
  m_routing_table !! Z.to_nat vnet = Some row ->
  (length row <= length m_weight_table)%nat ->
  0 <= rnd ->
  (exists q wq, candidate NetDest intersectionIsNotEmpty m_weight_table row dest q wq /\ wq <= INFINITE_) ->
  exists p w,
    lookupRoutingTable NetDest intersectionIsNotEmpty INFINITE_ isVNetOrdered
      m_routing_table m_weight_table dest vnet rnd = Ret (Z.of_nat p)
    /\ min_candidate NetDest intersectionIsNotEmpty m_weight_table row dest p w.
Proof.
  intros Hv Hrow Hlen Hr Hex.
  destruct (lookup_shape vnet row Hv Hrow Hlen)
    as (mw & l & _ & Hmem & Hlow & _ & Hnil & Hrun).
  assert (Hne : l <> []) by (intros Hl; by apply Hnil in Hl).
  assert (Hpick : exists p, lookup vnet rnd = Ret (Z.of_nat p) /\ p ∈ l).
  { rewrite Hrun. destruct l as [|x l']; [done|].
    change (length (x :: l') =? 0)%nat with false. cbv iota zeta.
    destruct (negb (isVNetOrdered vnet)).
    - destruct (pick_in_range (x :: l') rnd Hne Hr) as (y & Hy & Hnn).
      rewrite Hnn, Hy. exists y. split; [done|]. by eapply list_elem_of_lookup_2.
    - exists x. split; [done|]. by left. }
  destruct Hpick as (p & Hp & Hin). exists p, mw. split; [exact Hp|].
  split; [by apply Hmem | exact Hlow].
Qed.

(** C5 (as amended): on a valid row covered by the weight table, the call
    aborts with [NoRouteExists] exactly when no registered port whose mask
    intersects the destination has a weight of at most [INFINITE_]; in
    particular it aborts whenever no stored mask intersects the
    destination. *)
Theorem lookup_aborts_iff_no_candidate
    (vnet : Z) (row : list NetDest) (rnd : Z) :
  0 <= vnet ->
  m_routing_table !! Z.to_nat vnet = Some row ->
  (length row <= length m_weight_table)%nat ->
  (lookupRoutingTable NetDest intersectionIsNotEmpty INFINITE_ isVNetOrdered
      m_routing_table m_weight_table dest vnet rnd = Halt NoRouteExists
     <-> ~ exists q wq, candidate NetDest intersectionIsNotEmpty m_weight_table row dest q wq /\ wq <= INFINITE_)
  /\ ((forall q e, row !! q = Some e -> intersectionIsNotEmpty dest e = false) ->
      lookupRoutingTable NetDest intersectionIsNotEmpty INFINITE_ isVNetOrdered
      m_routing_table m_weight_table dest vnet rnd = Halt NoRouteExists).
Proof.
  intros Hv Hrow Hlen.
  destruct (lookup_shape vnet row Hv Hrow Hlen)
    as (mw & l & _ & Hmem & Hlow & _ & Hnil & Hrun).
  assert (Hiff : lookup vnet rnd = Halt NoRouteExists <-> l = []).
  { rewrite Hrun. destruct l as [|x l']; [done|].
    change (length (x :: l') =? 0)%nat with false. cbv iota zeta.
    split; [|done]. intros Habs. exfalso.
    destruct (if _ <? 0 then None else _); discriminate. }
  split.
  - by rewrite Hiff, Hnil.
  - intros Hno. apply Hiff, Hnil. intros (q & wq & (e & Hq & Hie & _) & _).
    rewrite (Hno q e Hq) in Hie. discriminate.
Qed.

(** C6: on an ordered virtual network the result of [lookupRoutingTable]
    does not depend on the pseudo-random source, and when a port is
    returned it is the first (lowest-index) minimum-weight candidate of
    the row, the same for every call. *)
Theorem lookup_ordered_deterministic (vnet : Z) (row : list NetDest) :
  isVNetOrdered vnet = true ->
  0 <= vnet ->
  m_routing_table !! Z.to_nat vnet = Some row ->
  (length row <= length m_weight_table)%nat ->
  (forall rnd1 rnd2,
     lookupRoutingTable NetDest intersectionIsNotEmpty INFINITE_ isVNetOrdered
      m_routing_table m_weight_table dest vnet rnd1
     = lookupRoutingTable NetDest intersectionIsNotEmpty INFINITE_ isVNetOrdered
      m_routing_table m_weight_table dest vnet rnd2)
  /\ ((exists q wq, candidate NetDest intersectionIsNotEmpty m_weight_table row dest q wq /\ wq <= INFINITE_) ->
      exists p w,
        (forall rnd,
           lookupRoutingTable NetDest intersectionIsNotEmpty INFINITE_ isVNetOrdered
      m_routing_table m_weight_table dest vnet rnd = Ret (Z.of_nat p))
        /\ first_min_candidate NetDest intersectionIsNotEmpty m_weight_table
             row dest p w)
  /\ (forall rnd p,
        lookupRoutingTable NetDest intersectionIsNotEmpty INFINITE_ isVNetOrdered
      m_routing_table m_weight_table dest vnet rnd = Ret (Z.of_nat p) ->
      exists w, first_min_candidate NetDest intersectionIsNotEmpty
                  m_weight_table row dest p w).
Proof.
  intros Hord Hv Hrow Hlen.
  destruct (lookup_shape vnet row Hv Hrow Hlen)
    as (mw & l & _ & Hmem & Hlow & Hsort & Hnil & Hrun).
  assert (Hhead : forall x l', l = x :: l' ->
            (forall rnd, lookup vnet rnd = Ret (Z.of_nat x))
            /\ first_min_candidate NetDest intersectionIsNotEmpty m_weight_table
                 row dest x mw).
  { intros x l' ->. split.
    - intros rnd. rewrite Hrun, Hord. reflexivity.
    - split; [split; [apply Hmem; by left | exact Hlow]|].
      intros q Hq Hc. apply Hmem in Hc.
      apply StronglySorted_inv in Hsort as [_ Hall].
      apply elem_of_cons in Hc as [-> | Hc]; [lia|].
      rewrite Forall_forall in Hall. specialize (Hall q Hc). lia. }
  split; [|split].
  - intros rnd1 rnd2. by rewrite !Hrun, Hord.
  - intros Hex. destruct l as [|x l']; [exfalso; by apply Hnil|].
    exists x, mw. by apply (Hhead x l').
  - intros rnd p Hp. destruct l as [|x l'].
    + rewrite Hrun in Hp. discriminate.
    + destruct (Hhead x l' eq_refl) as [Hx Hfirst].
      rewrite Hx in Hp. injection Hp as Hp. apply Nat2Z.inj in Hp. subst p.
      by exists mw.
Qed.
End TableFacts.

(** ** supportsVnet *)

Lemma std_find_None (l : list Z) (v : Z) : std_find l v = None <-> ~ In v l.
Proof.
  induction l as [|x rest IH]; simpl.
  - tauto.
  - destruct (Z.eqb_spec x v) as [->|Hne].
    + split; [discriminate | intros H; exfalso; apply H; by left].
    + destruct (std_find rest v); simpl.
      * split; [discriminate|]. intros H.
        assert (Some n = None) as Habs by (apply IH; tauto). discriminate Habs.
      * split; [|reflexivity]. intros _ [Heq | Hin]; [done|]. by apply IH.
Qed.

(** C10: [supportsVnet vnet sVnets] is true exactly when [sVnets] is empty
    or [vnet] is one of its elements. *)
Theorem supportsVnet_iff (vnet : Z) (sVnets : list Z) :
  supportsVnet vnet sVnets = true <-> sVnets = [] \/ In vnet sVnets.
Proof.
  unfold supportsVnet. destruct sVnets as [|x rest].
  - simpl. tauto.
  - change (length (x :: rest) =? 0)%nat with false. cbv iota.
    destruct (std_find (x :: rest) vnet) eqn:Hfind.
    + split; [|reflexivity]. intros _. right.
      destruct (in_dec Z.eq_dec vnet (x :: rest)) as [Hin | Hnot]; [exact Hin|].
      apply std_find_None in Hnot. congruence.
    + apply std_find_None in Hfind. split; [discriminate|].
      intros [Hnil | Hin]; [discriminate | contradiction].
Qed.

(** ** The dimension-order router *)

Lemma abs_diff_eqb (a b : Z) : (Z.abs (a - b) =? 0) = (a =? b).
Proof. destruct (Z.eqb_spec a b); [apply Z.eqb_eq | apply Z.eqb_neq]; lia. Qed.

Lemma abs_diff_gtb (a b : Z) : (Z.abs (a - b) >? 0) = negb (a =? b).
Proof.
  rewrite Z.gtb_ltb. destruct (Z.eqb_spec a b); simpl;
    [apply Z.ltb_ge | apply Z.ltb_lt]; lia.
Qed.

Lemma coords_inj (num_cols a b : Z) :
  num_cols <> 0 -> coords num_cols a = coords num_cols b -> a = b.
Proof.
  unfold coords. intros Hn Heq. injection Heq as Hx Hy.
  rewrite (Z.quot_rem' a num_cols), (Z.quot_rem' b num_cols). congruence.
Qed.

(** C7: on a mesh with [num_rows > 0] and [num_cols > 0], for distinct
    current and destination routers, [outportComputeXY] settles on the
    single-axis direction toward the destination (East or West whenever the
    columns differ, East if the destination column is at least the own one;
    otherwise North or South, North if the destination row is at least the
    own one) and returns its port, unless the assertion on the inbound
    direction stops it, which never happens for a packet entering from
    ["Local"]; a step in that direction changes one coordinate only and
    lowers the Manhattan distance to the destination by exactly 1. *)
Theorem xy_moves_one_step_closer
    (num_rows num_cols my_id dest_id : Z) (inport_dirn : string)
    (m : gmap string Z) :
  num_rows > 0 -> num_cols > 0 -> my_id <> dest_id ->
  let here := coords num_cols my_id in
  let there := coords num_cols dest_id in
  let d := dirn_toward here there in
  outportComputeXY num_rows num_cols my_id dest_id inport_dirn m
    = (if inport_allowed d inport_dirn then Ret (dirn2idx_index m d)
       else Halt AssertionFailed)
  /\ inport_allowed d "Local" = true
  /\ (fst there <> fst here ->
        snd (move d here) = snd here
        /\ (d = if fst there >=? fst here then "East" else "West")%string)
  /\ (fst there = fst here ->
        fst (move d here) = fst here
        /\ (d = if snd there >=? snd here then "North" else "South")%string)
  /\ manhattan (move d here) there = manhattan here there - 1.
Proof.
  intros Hr Hc Hne here there d.
  assert (Hdiff : here <> there).
  { intros Heq. apply Hne. apply (coords_inj num_cols); [lia | exact Heq]. }
  subst d. unfold outportComputeXY, xy_outport_dirn, col_of, row_of.
  replace (num_rows >? 0) with true by (symmetry; apply Z.gtb_lt; lia).
  replace (num_cols >? 0) with true by (symmetry; apply Z.gtb_lt; lia).
  unfold here, there, coords in *. 
  set (mx := Z.rem my_id num_cols) in *. set (my := Z.quot my_id num_cols) in *.
  set (dx := Z.rem dest_id num_cols) in *. set (dy := Z.quot dest_id num_cols) in *.
  unfold dirn_toward, manhattan. simpl fst. simpl snd. simpl bind.
  rewrite !abs_diff_eqb, !abs_diff_gtb.
  destruct (Z.eqb_spec dx mx) as [Hx | Hx]; simpl negb; simpl andb.
  - destruct (Z.eqb_spec dy my) as [Hy | Hy]; [exfalso; apply Hdiff; congruence|].
    simpl negb. simpl bind. cbv iota.
    destruct (Z.geb_spec dy my); unfold inport_allowed; simpl;
      (split; [by match goal with |- context [assert ?b] => destruct b end|]);
      (split; [reflexivity|]); (split; [intros; contradiction|]);
      (split; [intros; split; reflexivity|]); lia.
  - simpl bind. cbv iota.
    destruct (Z.geb_spec dx mx); unfold inport_allowed; simpl;
      (split; [by match goal with |- context [assert ?b] => destruct b end|]);
      (split; [reflexivity|]); (split; [intros; split; reflexivity|]);
      (split; [intros; contradiction|]); lia.
Qed.

(** ** The hybrid router: the search loops *)

Section ArgMin.

Variable X : Type.
Variables cost via exit : X -> Z.
Variable step : search -> X -> search.
Hypothesis step_eq : forall s x,
  step s x = if cost x <? hybrid_hops s then Search (cost x) (via x) (exit x) else s.

(** A loop of such steps keeps the smallest cost seen so far, with the
    first element that reached it. *)
Lemma fold_step_min (xs : list X) :
  forall s0,
    let s := fold_left step xs s0 in
    hybrid_hops s <= hybrid_hops s0
    /\ (forall x, In x xs -> hybrid_hops s <= cost x)
    /\ (s = s0 \/ exists x, In x xs /\ s = Search (cost x) (via x) (exit x)).
Proof.
  induction xs as [|x xs IH]; intros s0; simpl.
  - split; [lia|]. split; [intros x []|by left].
  - destruct (IH (step s0 x)) as (Hle & Hlow & Hsel).
    assert (Hx : hybrid_hops (step s0 x) <= cost x
                 /\ hybrid_hops (step s0 x) <= hybrid_hops s0
                 /\ (step s0 x = s0
                     \/ step s0 x = Search (cost x) (via x) (exit x))).
    { rewrite step_eq. destruct (Z.ltb_spec (cost x) (hybrid_hops s0)); simpl.
      - split; [lia|]. split; [lia|]. by right.
      - split; [lia|]. split; [lia|]. by left. }
    destruct Hx as (Hx1 & Hx2 & Hx3).
    split; [lia|]. split.
    + intros y [<- | Hy]; [lia | by apply Hlow].
    + destruct Hsel as [Hsel | (y & Hy & Hsel)].
      * rewrite Hsel. destruct Hx3 as [Hx3 | Hx3]; [by left|].
        right. exists x. split; [by left | exact Hx3].
      * right. exists y. split; [by right | exact Hsel].
Qed.

End ArgMin.

Section HybridFacts.

Variable num_rows num_cols my_id : Z.
Variable hybrid_connections : list (Z * list Z).
Variable dest_id : Z.

Local Abbreviation hops := (calculateHops num_cols).
Local Abbreviation the_search :=
  (hybrid_search num_cols my_id hybrid_connections dest_id).

Lemma capped_minimum_of_fold (X : Type) (cost : X -> Z) (xs : list X) (s : search) :
  hybrid_hops s <= INT_MAX ->
  (forall x, In x xs -> hybrid_hops s <= cost x) ->
  (s = search_init \/ exists x, In x xs /\ hybrid_hops s = cost x) ->
  is_capped_minimum (hybrid_hops s) (map cost xs).
Proof.
  intros Hle Hlow Hsel. split; [exact Hle|]. split.
  - intros c (x & <- & Hx)%in_map_iff. by apply Hlow.
  - destruct Hsel as [-> | (x & Hx & ->)]; [by right|].
    left. by apply in_map.
Qed.

(** At one of the routers 18, 45, 50, 21: the minimum over the hubs listed
    for the router itself. *)
Lemma hybrid_search_hub :
  at_hybrid_router my_id = true ->
  is_capped_minimum (hybrid_hops the_search)
    (map (egress_hops num_cols dest_id)
         (connections_index hybrid_connections my_id))
  /\ (the_search = search_init
      \/ exists h, In h (connections_index hybrid_connections my_id)
                   /\ the_search = Search (egress_hops num_cols dest_id h) h h).
Proof.
  intros Hat. unfold hybrid_search. rewrite Hat.
  destruct (fold_step_min Z (egress_hops num_cols dest_id) id id
              (hub_body num_cols dest_id) ltac:(reflexivity)
              (connections_index hybrid_connections my_id) search_init)
    as (Hle & Hlow & Hsel).
  split; [|exact Hsel].
  apply capped_minimum_of_fold; [exact Hle | exact Hlow |].
  destruct Hsel as [Hs | (h & Hh & Hs)]; [by left|].
  right. exists h. split; [exact Hh|]. by rewrite Hs.
Qed.

Local Abbreviation pair_step := (pair_step num_cols my_id dest_id).

Lemma entry_body_pairs (s : search) (entry : Z * list Z) :
  entry_body num_cols my_id dest_id s entry
  = fold_left pair_step (map (fun h2 => (fst entry, h2)) (snd entry)) s.
Proof.
  unfold entry_body. generalize s. induction (snd entry) as [|h2 l IH]; intros s'.
  - reflexivity.
  - simpl. apply IH.
Qed.

Lemma entries_fold_pairs :
  forall s, fold_left (entry_body num_cols my_id dest_id) hybrid_connections s
            = fold_left pair_step (all_pairs hybrid_connections) s.
Proof.
  unfold all_pairs. induction hybrid_connections as [|entry rest IH]; intros s.
  - reflexivity.
  - simpl. rewrite fold_left_app, IH, entry_body_pairs. reflexivity.
Qed.

(** At any other router: the minimum over all pairs of the mapping. *)
Lemma hybrid_search_elsewhere :
  at_hybrid_router my_id = false ->
  is_capped_minimum (hybrid_hops the_search)
    (map (wireless_path_hops num_cols my_id dest_id)
         (all_pairs hybrid_connections))
  /\ (the_search = search_init
      \/ exists p, In p (all_pairs hybrid_connections)
                   /\ the_search
                      = Search (wireless_path_hops num_cols my_id dest_id p)
                          (fst p) (snd p)).
Proof.
  intros Hat. unfold hybrid_search. rewrite Hat, entries_fold_pairs.
  destruct (fold_step_min (Z * Z) (wireless_path_hops num_cols my_id dest_id)
              fst snd pair_step ltac:(reflexivity)
              (all_pairs hybrid_connections) search_init)
    as (Hle & Hlow & Hsel).
  split; [|exact Hsel].
  apply capped_minimum_of_fold; [exact Hle | exact Hlow |].
  destruct Hsel as [Hs | (p & Hp & Hs)]; [by left|].
  right. exists p. split; [exact Hp|]. by rewrite Hs.
Qed.

(** The comparison that ends [outportComputeCustom]. *)
Lemma custom_decision (inport_dirn : string) (m : gmap string Z) :
  num_cols <> 0 ->
  outportComputeCustom num_rows num_cols my_id hybrid_connections dest_id
    inport_dirn m
  = if hybrid_hops the_search <? hops my_id dest_id
    then Ret (hybrid_route num_cols my_id hybrid_connections dest_id m)
    else wired_route num_rows num_cols my_id dest_id inport_dirn m.
Proof.
  intros Hn. unfold outportComputeCustom, hybrid_route, wired_route.
  destruct (Z.eqb_spec num_cols 0); [contradiction|].
  destruct (hybrid_hops the_search <? hops my_id dest_id); [|reflexivity].
  destruct (at_hybrid_router my_id);
    by destruct (dirn2idx_index m _).
Qed.

(** C8: when [hybrid_hops < xy_hops] the hybrid path is used; otherwise,
    and so also when the two are equal, the result is the port chosen by
    [outportComputeXY] together with the shortcut hub [-1]. *)
Theorem hybrid_decision_rule (inport_dirn : string) (m : gmap string Z) :
  num_cols <> 0 ->
  let custom :=
    outportComputeCustom num_rows num_cols my_id hybrid_connections dest_id
      inport_dirn m in
  (hybrid_hops the_search < hops my_id dest_id ->
     custom = Ret (hybrid_route num_cols my_id hybrid_connections dest_id m))
  /\ (hops my_id dest_id <= hybrid_hops the_search ->
        custom = wired_route num_rows num_cols my_id dest_id inport_dirn m
        /\ forall port m',
             outportComputeXY num_rows num_cols my_id dest_id inport_dirn m
               = Ret (port, m') ->
             custom = Ret ((port, -1), m'))
  /\ (hybrid_hops the_search = hops my_id dest_id ->
        custom = wired_route num_rows num_cols my_id dest_id inport_dirn m).
Proof.
  intros Hn custom. subst custom. rewrite (custom_decision _ _ Hn).
  split; [|split].
  - intros Hlt. by apply Z.ltb_lt in Hlt as ->.
  - intros Hge. apply Z.ltb_ge in Hge as ->. split; [reflexivity|].
    intros port m' Hxy. unfold wired_route. by rewrite Hxy.
  - intros Heq. rewrite Heq, Z.ltb_irrefl. reflexivity.
Qed.

Lemma connections_index_pairs (h : Z) :
  In h (connections_index hybrid_connections my_id) ->
  In (my_id, h) (all_pairs hybrid_connections).
Proof.
  intros Hh. unfold all_pairs. apply in_flat_map.
  exists (my_id, connections_index hybrid_connections my_id). split.
  - clear dest_id. revert Hh.
    induction hybrid_connections as [|[k v] rest IH]; simpl; [done|].
    destruct (Z.eqb_spec k my_id) as [->|Hne]; intros Hh; [by left|].
    right. by apply IH.
  - simpl. apply in_map_iff. by exists h.
Qed.

Lemma egress_hops_as_path (h : Z) :
  egress_hops num_cols dest_id h
  = wireless_path_hops num_cols my_id dest_id (my_id, h).
Proof. unfold egress_hops, wireless_path_hops, calculateHops. simpl. lia. Qed.

Lemma capped_minimum_of_fitting (m : Z) (costs : list Z) :
  is_capped_minimum m costs ->
  (forall c, In c costs -> c <= INT_MAX) ->
  (costs <> [] -> is_minimum m costs) /\ (costs = [] -> m = INT_MAX).
Proof.
  intros (Hle & Hlow & Hsel) Hfit. split.
  - intros Hne. split; [|exact Hlow].
    destruct Hsel as [Hin | ->]; [exact Hin|].
    destruct costs as [|c costs']; [done|].
    assert (c = INT_MAX) as ->; [|by left].
    pose proof (Hlow c ltac:(by left)). pose proof (Hfit c ltac:(by left)). lia.
  - intros ->. by destruct Hsel as [[] | ->].
Qed.

(** C2 (as amended): on calls whose hop counts fit an [int], where the hub
    test of the router agrees with the configured mapping, [hybrid_hops] at
    a hub is the minimum, over the hubs listed for that hub, of the distance
    from the listed hub to the destination plus 1 (the paths whose wireless
    hop starts at the router itself); at any other router it is the minimum
    over all (entry hub, exit hub) pairs of the mapping of the hops of the
    single-wireless-hop path through them; it is [INT_MAX] when there is no
    such path.  The wired route is taken whenever [hybrid_hops >= xy_hops],
    the hybrid path otherwise. *)
Theorem hybrid_hops_minimum_and_selection
    (inport_dirn : string) (m : gmap string Z) :
  0 < num_cols ->
  hops_fit_int num_cols my_id dest_id hybrid_connections ->
  (at_hybrid_router my_id = true <-> configured_hub hybrid_connections my_id) ->
  let custom :=
    outportComputeCustom num_rows num_cols my_id hybrid_connections dest_id
      inport_dirn m in
  let own_links :=
    map (egress_hops num_cols dest_id)
      (connections_index hybrid_connections my_id) in
  let all_links :=
    map (wireless_path_hops num_cols my_id dest_id)
      (all_pairs hybrid_connections) in
  (configured_hub hybrid_connections my_id ->
     (own_links <> [] -> is_minimum (hybrid_hops the_search) own_links)
     /\ (own_links = [] -> hybrid_hops the_search = INT_MAX))
  /\ (~ configured_hub hybrid_connections my_id ->
        (all_links <> [] -> is_minimum (hybrid_hops the_search) all_links)
        /\ (all_links = [] -> hybrid_hops the_search = INT_MAX))
  /\ (hybrid_hops the_search >= hops my_id dest_id ->
        custom = wired_route num_rows num_cols my_id dest_id inport_dirn m)
  /\ (hybrid_hops the_search < hops my_id dest_id ->
        custom = Ret (hybrid_route num_cols my_id hybrid_connections dest_id m)).
Proof.
  intros Hn (_ & _ & _ & Hfit) Hagree custom own_links all_links.
  subst custom own_links all_links.
  assert (Hn0 : num_cols <> 0) by lia. rewrite (custom_decision _ _ Hn0).
  split; [|split; [|split]].
  - intros Hhub. apply capped_minimum_of_fitting.
    + apply hybrid_search_hub. by apply Hagree.
    + intros c (h & <- & Hh)%in_map_iff. rewrite egress_hops_as_path.
      by apply Hfit, connections_index_pairs.
  - intros Hnot. apply capped_minimum_of_fitting.
    + apply hybrid_search_elsewhere.
      destruct (at_hybrid_router my_id); [|reflexivity].
      exfalso. by apply Hnot, Hagree.
    + intros c (p & <- & Hp)%in_map_iff. by apply Hfit.
  - intros Hge. by replace (_ <? _) with false by (symmetry; apply Z.ltb_ge; lia).
  - intros Hlt. by apply Z.ltb_lt in Hlt as ->.
Qed.

(** C1 (as amended): a direction without a registered port does not stop
    the call.  Reading the map registers the direction with port index 0,
    and the call returns port index 0: in [outportComputeXY] for the wired
    direction it settled on, in [outportComputeCustom] for the wireless
    egress of the chosen hub (returned with that hub). *)
Theorem unregistered_direction_yields_port_zero
    (inport_dirn : string) (m : gmap string Z) :
  (forall d,
     xy_outport_dirn num_rows num_cols my_id dest_id inport_dirn = Ret d ->
     m !! d = None ->
     outportComputeXY num_rows num_cols my_id dest_id inport_dirn m
       = Ret (0, <[d := 0]> m))
  /\ (num_cols <> 0 ->
      at_hybrid_router my_id = true ->
      hybrid_hops the_search < hops my_id dest_id ->
      m !! wireless_out_dirn (dest_hybrid_router the_search) = None ->
      outportComputeCustom num_rows num_cols my_id hybrid_connections dest_id
        inport_dirn m
        = Ret ((0, dest_hybrid_router the_search),
               <[wireless_out_dirn (dest_hybrid_router the_search) := 0]> m)).
Proof.
  split.
  - intros d Hd Hnone. unfold outportComputeXY, dirn2idx_index.
    rewrite Hd. simpl. by rewrite Hnone.
  - intros Hn Hat Hlt Hnone. rewrite (custom_decision _ _ Hn).
    apply Z.ltb_lt in Hlt as ->. unfold hybrid_route, dirn2idx_index.
    by rewrite Hat, Hnone.
Qed.

End HybridFacts.

(** ** The hybrid router away from the hubs *)

Lemma calculateHops_bound (num_cols a b : Z) :
  0 < num_cols -> valid_id a -> valid_id b -> calculateHops num_cols a b <= INT_MAX.
Proof.
  unfold valid_id, calculateHops. intros Hn [Ha0 Ha1] [Hb0 Hb1].
  rewrite !Z.rem_mod_nonneg, !Z.quot_div_nonneg by lia.
  pose proof (Z.div_mod a num_cols ltac:(lia)) as Ea.
  pose proof (Z.div_mod b num_cols ltac:(lia)) as Eb.
  pose proof (Z.mod_pos_bound a num_cols Hn) as Ba.
  pose proof (Z.mod_pos_bound b num_cols Hn) as Bb.
  pose proof (Z.div_pos a num_cols Ha0 Hn) as Da.
  pose proof (Z.div_pos b num_cols Hb0 Hn) as Db.
  revert Ea Eb Ba Bb Da Db.
  generalize (a mod num_cols) (a / num_cols) (b mod num_cols) (b / num_cols).
  intros xa ya xb yb Ea Eb Ba Bb Da Db. nia.
Qed.

Lemma connections_index_absent (hc : list (Z * list Z)) (id : Z) :
  (forall e, In e hc -> fst e <> id) -> connections_index hc id = [].
Proof.
  induction hc as [|[k v] rest IH]; intros Hkey; simpl; [reflexivity|].
  destruct (Z.eqb_spec k id) as [Heq | Hne].
  - exfalso. apply (Hkey (k, v)); [by left | exact Heq].
  - apply IH. intros e He. apply Hkey. by right.
Qed.

Lemma all_pairs_entry (hc : list (Z * list Z)) (p : Z * Z) :
  In p (all_pairs hc) <-> exists e, In e hc /\ fst e = fst p /\ In (snd p) (snd e).
Proof.
  unfold all_pairs. rewrite in_flat_map. split.
  - intros (e & He & (h2 & <- & Hh2)%in_map_iff). by exists e.
  - intros (e & He & Hk & Hh2). exists e. split; [exact He|].
    apply in_map_iff. exists (snd p). split; [|exact Hh2].
    rewrite Hk. by destruct p.
Qed.

Lemma toward_dirn_spec (num_cols my_id target : Z) :
  coords num_cols my_id <> coords num_cols target ->
  toward_dirn num_cols my_id target
  = dirn_toward (coords num_cols my_id) (coords num_cols target).
Proof.
  unfold toward_dirn, dirn_toward, coords. simpl. intros Hne.
  rewrite !Z.gtb_ltb.
  destruct (Z.eqb_spec (Z.rem target num_cols) (Z.rem my_id num_cols)) as [Hx|Hx];
    simpl.
  - rewrite Hx, Z.ltb_irrefl.
    destruct (Z.geb_spec (Z.quot target num_cols) (Z.quot my_id num_cols)).
    + destruct (Z.ltb_spec (Z.quot my_id num_cols) (Z.quot target num_cols));
        [reflexivity|].
      exfalso. apply Hne. f_equal; [congruence | lia].
    + destruct (Z.ltb_spec (Z.quot my_id num_cols) (Z.quot target num_cols));
        [lia|].
      by destruct (Z.ltb_spec (Z.quot target num_cols) (Z.quot my_id num_cols));
        [|lia].
  - destruct (Z.geb_spec (Z.rem target num_cols) (Z.rem my_id num_cols)).
    + by destruct (Z.ltb_spec (Z.rem my_id num_cols) (Z.rem target num_cols));
        [|lia].
    + destruct (Z.ltb_spec (Z.rem my_id num_cols) (Z.rem target num_cols));
        [lia|].
      by destruct (Z.ltb_spec (Z.rem target num_cols) (Z.rem my_id num_cols));
        [|lia].
Qed.

Lemma dirn_toward_step (p q : Z * Z) :
  p <> q ->
  let d := dirn_toward p q in
  manhattan (move d p) q = manhattan p q - 1
  /\ (fst q <> fst p ->
        (d = if fst q >=? fst p then "East" else "West")%string
        /\ snd (move d p) = snd p)
  /\ (fst q = fst p ->
        (d = if snd q >=? snd p then "North" else "South")%string
        /\ fst (move d p) = fst p).
Proof.
  destruct p as [px py], q as [qx qy]. intros Hne.
  unfold dirn_toward, manhattan. simpl fst. simpl snd.
  destruct (Z.eqb_spec qx px) as [Hx | Hx]; simpl negb; cbv iota.
  - assert (qy <> py) by congruence.
    destruct (Z.geb_spec qy py); simpl;
      (split; [lia|]); (split; [intros; contradiction | intros; split; reflexivity]).
  - destruct (Z.geb_spec qx px); simpl;
      (split; [lia|]); (split; [intros; split; reflexivity | intros; contradiction]).
Qed.

(** C9: at a router that is not a hub of the configured mapping, a call
    that takes the hybrid path (hop counts fitting an [int], [num_cols > 0])
    leaves in the single-step direction toward the chosen intermediate hub
    [h1]: East or West whenever the columns differ, North or South only when
    they are equal, one step closer to [h1].  The returned port is the index
    registered for that direction, with the map left as it is (a direction
    that is not registered is inserted with index 0, which is then
    returned); the returned shortcut hub is the chosen exit hub [h2], which
    is not [-1]. *)
Theorem hybrid_step_toward_hub
    (num_rows num_cols my_id : Z) (hybrid_connections : list (Z * list Z))
    (dest_id : Z) (inport_dirn : string) (m : gmap string Z) :
  0 < num_cols ->
  hops_fit_int num_cols my_id dest_id hybrid_connections ->
  ~ configured_hub hybrid_connections my_id ->
  hybrid_hops (hybrid_search num_cols my_id hybrid_connections dest_id)
    < calculateHops num_cols my_id dest_id ->
  exists h1 h2,
    In (h1, h2) (all_pairs hybrid_connections)
    /\ hybrid_search num_cols my_id hybrid_connections dest_id
       = Search (wireless_path_hops num_cols my_id dest_id (h1, h2)) h1 h2
    /\ h2 <> -1
    /\ let here := coords num_cols my_id in
       let hub := coords num_cols h1 in
       let d := dirn_toward here hub in
       (forall idx, m !! d = Some idx ->
          outportComputeCustom num_rows num_cols my_id hybrid_connections dest_id
            inport_dirn m
          = Ret ((idx, h2), m))
       /\ (m !! d = None ->
             outportComputeCustom num_rows num_cols my_id hybrid_connections
               dest_id inport_dirn m
             = Ret ((0, h2), <[d := 0]> m))
       /\ manhattan (move d here) hub = manhattan here hub - 1
       /\ (fst hub <> fst here ->
             (d = if fst hub >=? fst here then "East" else "West")%string
             /\ snd (move d here) = snd here)
       /\ (fst hub = fst here ->
             (d = if snd hub >=? snd here then "North" else "South")%string
             /\ fst (move d here) = fst here).
Proof.
  intros Hn (Hmy & Hdest & _ & Hfit) Hnot Hlt.
  assert (Hkey : forall e, In e hybrid_connections -> fst e <> my_id).
  { intros e He Hk. apply Hnot. by exists e. }
  pose proof (calculateHops_bound num_cols my_id dest_id Hn Hmy Hdest) as Hxy.
  assert (Hat : at_hybrid_router my_id = false).
  { destruct (at_hybrid_router my_id) eqn:Hat; [|reflexivity]. exfalso.
    unfold hybrid_search in Hlt.
    rewrite Hat, (connections_index_absent _ _ Hkey) in Hlt. simpl in Hlt. lia. }
  destruct (hybrid_search_elsewhere num_cols my_id hybrid_connections dest_id Hat)
    as [_ [Hinit | ([h1 h2] & Hp & Hs)]].
  { rewrite Hinit in Hlt. simpl in Hlt. lia. }
  exists h1, h2. split; [exact Hp|]. split; [exact Hs|].
  split.
  { destruct (Hfit _ Hp) as [Hexit _]. unfold valid_id in Hexit.
    simpl in Hexit. lia. }
  assert (Hne : coords num_cols my_id <> coords num_cols h1).
  { intros Heq. apply coords_inj in Heq; [|lia].
    apply all_pairs_entry in Hp as (e & He & Hk & _). simpl in Hk.
    apply (Hkey e He). congruence. }
  intros here hub d.
  assert (Hrun : outportComputeCustom num_rows num_cols my_id hybrid_connections
                   dest_id inport_dirn m
                 = Ret ((fst (dirn2idx_index m d), h2), snd (dirn2idx_index m d))).
  { assert (Hn0 : num_cols <> 0) by lia.
    rewrite (custom_decision num_rows num_cols my_id hybrid_connections dest_id
               inport_dirn m Hn0).
    apply Z.ltb_lt in Hlt as ->. unfold hybrid_route.
    rewrite Hat, Hs. simpl best_hybrid_router. simpl dest_hybrid_router.
    by rewrite (toward_dirn_spec _ _ _ Hne). }
  split; [|split].
  - intros idx Hidx. rewrite Hrun. unfold dirn2idx_index. by rewrite Hidx.
  - intros Hnone. rewrite Hrun. unfold dirn2idx_index. by rewrite Hnone.
  - exact (dirn_toward_step here hub Hne).
Qed.

(** ** Evaluations *)

(** C3: the test that selects the hub case names the routers 18, 45, 50 and
    21 and does not read the configured mapping.  With hubs 5 and 10
    configured on an 8-column mesh, router 5 (a configured hub, 2 hops from
    router 11 over its wireless link) runs the other search, finds itself as
    the nearest hub and leaves through the port of ["Unknown"]; router 18
    (not configured) runs the hub case on an empty list and finds no path,
    although a single-wireless-hop path of 3 hops exists. *)
Theorem hub_test_ignores_configuration :
  let hc := [(5, [10]); (10, [5])] in
  at_hybrid_router 5 = false
  /\ egress_hops 8 11 10 = 2
  /\ calculateHops 8 5 11 = 3
  /\ hybrid_search 8 5 hc 11 = Search 2 5 10
  /\ toward_dirn 8 5 5 = "Unknown"%string
  /\ outportComputeCustom 8 8 5 hc 11 "Local" sample_ports
     = Ret ((0, 10), <["Unknown"%string := 0]> sample_ports)
  /\ at_hybrid_router 18 = true
  /\ hybrid_search 8 18 hc 6 = search_init
  /\ is_minimum 3 (map (wireless_path_hops 8 18 6) (all_pairs hc)).
Proof.
  repeat split; try reflexivity.
  - vm_compute. auto.
  - intros c Hc. vm_compute in Hc. destruct Hc as [<- | [<- | []]]; lia.
Qed.

(** C1, counterexample: router 0 of an 8 x 8 mesh has no port registered for
    ["East"], yet [outportComputeXY] toward router 1 returns port 0; hub 21
    has no port registered for ["Wireless_Out18"], yet
    [outportComputeCustom] toward router 50 returns port 0 with hub 18. *)
Lemma unregistered_direction_counterexample :
  xy_outport_dirn 8 8 0 1 "Local" = Ret "East"%string
  /\ ({["Local"%string := 0]} : gmap string Z) !! "East"%string = None
  /\ outportComputeXY 8 8 0 1 "Local" {["Local"%string := 0]}
     = Ret (0, <["East"%string := 0]> {["Local"%string := 0]})
  /\ sample_ports !! wireless_out_dirn 18 = None
  /\ outportComputeCustom 8 8 21 sample_links 50 "Local" sample_ports
     = Ret ((0, 18), <["Wireless_Out18"%string := 0]> sample_ports).
Proof. repeat split; reflexivity. Qed.

(** C2, counterexample: at hub 21 with links 21 -> 18 and 45 -> 50, toward
    router 50, the search yields 5 hops, while the path through hubs 45 and
    50 has 4: [hybrid_hops] is not the minimum over all single-wireless-hop
    paths. *)
Lemma hybrid_hops_not_minimum_counterexample :
  hybrid_hops (hybrid_search 8 21 sample_links 50) = 5
  /\ In (45, 50) (all_pairs sample_links)
  /\ wireless_path_hops 8 21 50 (45, 50) = 4
  /\ ~ is_minimum (hybrid_hops (hybrid_search 8 21 sample_links 50))
         (map (wireless_path_hops 8 21 50) (all_pairs sample_links)).
Proof.
  split; [reflexivity|]. split; [vm_compute; auto|]. split; [reflexivity|].
  intros [_ Hmin]. specialize (Hmin 4). 
  assert (5 <= 4) as Habs by (apply Hmin; vm_compute; auto). lia.
Qed.

(** C4, counterexample: with [INFINITE_] at 10000 (its value in
    [CommonTypes.hh]), a row whose only port intersects the destination and
    has weight 10001 is covered by the weight table, and the call returns no
    port. *)
Lemma lookup_min_weight_counterexample :
  candidate Z mask_intersects [10001] [1] 1 0%nat 10001
  /\ Nat.le (length [1]) (length [10001])
  /\ lookupRoutingTable Z mask_intersects 10000 (fun _ => true) [[1]] [10001] 1 0 0
     = Halt NoRouteExists.
Proof.
  split; [|split; [simpl; unfold Nat.le; lia | reflexivity]].
  exists 1. repeat split.
Qed.

(** C5, counterexample: with [INFINITE_] at 10000, port 1 of the row
    intersects the destination, and the call still aborts with
    [NoRouteExists] because its weight is 10001. *)
Lemma lookup_abort_counterexample :
  mask_intersects 2 6 = true
  /\ [4; 6] !! 1%nat = Some 6
  /\ lookupRoutingTable Z mask_intersects 10000 (fun _ => false)
       [[4; 6]] [20000; 10001] 2 0 3
     = Halt NoRouteExists.
Proof. repeat split. Qed.

(** ** The theorems at concrete inputs *)

(** [hops_fit_int] on a concrete mapping, by computing every sum. *)
Ltac hops_fit_by_computation :=
  unfold hops_fit_int, valid_id, INT_MAX;
  split; [lia|]; split; [lia|]; split;
  [ intros entry Hentry; vm_compute in Hentry;
    repeat (destruct Hentry as [<- | Hentry]; [simpl; lia|]); destruct Hentry
  | intros p Hp; vm_compute in Hp;
    repeat (destruct Hp as [<- | Hp];
            [split; [simpl; lia | vm_compute; discriminate]|]);
    destruct Hp ].

Lemma unregistered_direction_yields_port_zero_witness :
  outportComputeXY 8 8 0 1 "Local" {["Local"%string := 0]}
    = Ret (0, <["East"%string := 0]> {["Local"%string := 0]})
  /\ outportComputeCustom 8 8 21 sample_links 50 "Local" sample_ports
     = Ret ((0, dest_hybrid_router (hybrid_search 8 21 sample_links 50)),
            <[wireless_out_dirn
                (dest_hybrid_router (hybrid_search 8 21 sample_links 50)) := 0]>
              sample_ports).
Proof.
  destruct (unregistered_direction_yields_port_zero 8 8 21 sample_links 50
              "Local" sample_ports) as [_ Hhub].
  destruct (unregistered_direction_yields_port_zero 8 8 0 sample_links 1
              "Local" {["Local"%string := 0]}) as [Hxy _].
  split.
  - apply Hxy; reflexivity.
  - apply Hhub; [lia | reflexivity | vm_compute; reflexivity | reflexivity].
Defined.

Lemma hybrid_hops_minimum_and_selection_witness :
  is_minimum (hybrid_hops (hybrid_search 8 0 full_links 63))
    (map (wireless_path_hops 8 0 63) (all_pairs full_links))
  /\ outportComputeCustom 8 8 0 full_links 63 "Local" sample_ports
     = Ret (hybrid_route 8 0 full_links 63 sample_ports).
Proof.
  assert (Hnot : ~ configured_hub full_links 0).
  { intros (e & He & Hk). vm_compute in He.
    destruct He as [<- | [<- | [<- | [<- | []]]]]; simpl in Hk; lia. }
  destruct (hybrid_hops_minimum_and_selection 8 8 0 full_links 63 "Local"
              sample_ports ltac:(lia)) as (_ & Hmin & _ & Hsel).
  { hops_fit_by_computation. }
  { split; [discriminate | intros Hhub; by destruct Hnot]. }
  split.
  - apply Hmin; [exact Hnot | discriminate].
  - apply Hsel. vm_compute. reflexivity.
Defined.

Lemma lookup_returns_min_weight_candidate_witness :
  exists p w,
    lookupRoutingTable Z mask_intersects 10000 (fun _ => false)
      [[1; 3; 2]] [7; 5; 5] 2 0 7 = Ret (Z.of_nat p)
    /\ min_candidate Z mask_intersects [7; 5; 5] [1; 3; 2] 2 p w.
Proof.
  apply (lookup_returns_min_weight_candidate Z mask_intersects 10000
           (fun _ => false) [[1; 3; 2]] [7; 5; 5] 2 0 [1; 3; 2] 7).
  - lia.
  - reflexivity.
  - simpl. lia.
  - lia.
  - exists 1%nat, 5. split; [|lia]. exists 3. repeat split.
Defined.

Lemma lookup_aborts_iff_no_candidate_witness :
  lookupRoutingTable Z mask_intersects 10000 (fun _ => false)
    [[1; 4]] [7; 5] 2 0 7 = Halt NoRouteExists.
Proof.
  destruct (lookup_aborts_iff_no_candidate Z mask_intersects 10000
              (fun _ => false) [[1; 4]] [7; 5] 2 0 [1; 4] 7
              ltac:(lia) eq_refl ltac:(simpl; lia)) as [_ Habort].
  apply Habort. intros [|[|q]] e Hq; simpl in Hq; try discriminate;
    injection Hq as <-; reflexivity.
Defined.

Lemma lookup_ordered_deterministic_witness :
  (forall rnd1 rnd2,
     lookupRoutingTable Z mask_intersects 10000 (fun _ => true)
       [[1; 3; 2]] [7; 5; 5] 2 0 rnd1
     = lookupRoutingTable Z mask_intersects 10000 (fun _ => true)
         [[1; 3; 2]] [7; 5; 5] 2 0 rnd2)
  /\ exists p w,
       (forall rnd,
          lookupRoutingTable Z mask_intersects 10000 (fun _ => true)
            [[1; 3; 2]] [7; 5; 5] 2 0 rnd = Ret (Z.of_nat p))
       /\ first_min_candidate Z mask_intersects [7; 5; 5] [1; 3; 2] 2 p w.
Proof.
  destruct (lookup_ordered_deterministic Z mask_intersects 10000
              (fun _ => true) [[1; 3; 2]] [7; 5; 5] 2 0 [1; 3; 2]
              eq_refl ltac:(lia) eq_refl ltac:(simpl; lia)) as (Hdet & Hfirst & _).
  split; [exact Hdet|]. apply Hfirst.
  exists 1%nat, 5. split; [|lia]. exists 3. repeat split.
Defined.

Lemma xy_moves_one_step_closer_witness :
  outportComputeXY 8 8 0 63 "Local" sample_ports = Ret (1, sample_ports)
  /\ manhattan (move "East" (coords 8 0)) (coords 8 63)
     = manhattan (coords 8 0) (coords 8 63) - 1.
Proof.
  destruct (xy_moves_one_step_closer 8 8 0 63 "Local" sample_ports
              ltac:(lia) ltac:(lia) ltac:(lia)) as (Hxy & _ & _ & _ & Hstep).
  split; [exact Hxy | exact Hstep].
Defined.

Lemma hybrid_decision_rule_witness :
  outportComputeCustom 8 8 0 full_links 9 "Local" sample_ports
  = wired_route 8 8 0 9 "Local" sample_ports.
Proof.
  destruct (hybrid_decision_rule 8 8 0 full_links 9 "Local" sample_ports
              ltac:(lia)) as (_ & Hwired & _).
  assert (calculateHops 8 0 9 <= hybrid_hops (hybrid_search 8 0 full_links 9))
    as Hle by (vm_compute; discriminate).
  exact (proj1 (Hwired Hle)).
Defined.

Lemma hybrid_step_toward_hub_witness :
  exists h1 h2,
    In (h1, h2) (all_pairs full_links)
    /\ hybrid_search 8 0 full_links 63
       = Search (wireless_path_hops 8 0 63 (h1, h2)) h1 h2
    /\ h2 <> -1
    /\ let here := coords 8 0 in
       let hub := coords 8 h1 in
       let d := dirn_toward here hub in
       (forall idx, sample_ports !! d = Some idx ->
          outportComputeCustom 8 8 0 full_links 63 "Local" sample_ports
          = Ret ((idx, h2), sample_ports))
       /\ (sample_ports !! d = None ->
             outportComputeCustom 8 8 0 full_links 63 "Local" sample_ports
             = Ret ((0, h2), <[d := 0]> sample_ports))
       /\ manhattan (move d here) hub = manhattan here hub - 1
       /\ (fst hub <> fst here ->
             (d = if fst hub >=? fst here then "East" else "West")%string
             /\ snd (move d here) = snd here)
       /\ (fst hub = fst here ->
             (d = if snd hub >=? snd here then "North" else "South")%string
             /\ fst (move d here) = fst here).
Proof.
  apply (hybrid_step_toward_hub 8 8 0 full_links 63 "Local" sample_ports).
  - lia.
  - hops_fit_by_computation.
  - intros (e & He & Hk). vm_compute in He.
    destruct He as [<- | [<- | [<- | [<- | []]]]]; simpl in Hk; lia.
  - vm_compute. reflexivity.
Defined.

(** * Further properties *)

(** ** The table router: totality, ties, and the tables under construction *)

Section TableMore.

Variable NetDest : Type.
Variable intersectionIsNotEmpty : NetDest -> NetDest -> bool.
Variable INFINITE_ : Z.
Variable isVNetOrdered : Z -> bool.

(** X1: on an existing row covered by the weight table, with a non-negative
    value of [rand()], [lookupRoutingTable] either aborts with
    [NoRouteExists] or returns the index of a link of the row: it reads no
    vector out of range and [at] never throws. *)
Theorem lookup_total
    (m_routing_table : list (list NetDest)) (m_weight_table : list Z)
    (dest : NetDest) (vnet : Z) (row : list NetDest) (rnd : Z) :
  0 <= vnet ->
  m_routing_table !! Z.to_nat vnet = Some row ->
  (length row <= length m_weight_table)%nat ->
  0 <= rnd ->
  lookupRoutingTable NetDest intersectionIsNotEmpty INFINITE_ isVNetOrdered
    m_routing_table m_weight_table dest vnet rnd = Halt NoRouteExists
  \/ exists p,
       lookupRoutingTable NetDest intersectionIsNotEmpty INFINITE_ isVNetOrdered
         m_routing_table m_weight_table dest vnet rnd = Ret (Z.of_nat p)
       /\ (p < length row)%nat.
Proof.
  intros Hv Hrow Hlen Hr.
  destruct (lookup_shape NetDest intersectionIsNotEmpty INFINITE_ isVNetOrdered
              m_routing_table m_weight_table dest vnet row Hv Hrow Hlen)
    as (mw & l & _ & Hmem & _ & _ & _ & Hrun).
  rewrite Hrun. destruct l as [|x l']; [by left|]. right.
  change (length (x :: l') =? 0)%nat with false. cbv iota zeta.
  assert (Hin : forall p, p ∈ x :: l' -> (p < length row)%nat).
  { intros p (e & Hp & _)%Hmem. by eapply lookup_lt_Some. }
  destruct (negb (isVNetOrdered vnet)).
  - destruct (pick_in_range (x :: l') rnd ltac:(done) Hr) as (y & Hy & Hnn).
    rewrite Hnn, Hy. exists y. split; [done|].
    apply Hin. by eapply list_elem_of_lookup_2.
  - exists x. split; [done|]. apply Hin. by left.
Qed.

(** X2: on an unordered virtual network every candidate of minimum weight (at
    most [INFINITE_]) is the answer for some value of [rand()]: ties are
    spread over all tied links. *)
Theorem lookup_unordered_reaches_every_tie
    (m_routing_table : list (list NetDest)) (m_weight_table : list Z)
    (dest : NetDest) (vnet : Z) (row : list NetDest) (q : nat) (w : Z) :
  isVNetOrdered vnet = false ->
  0 <= vnet ->
  m_routing_table !! Z.to_nat vnet = Some row ->
  (length row <= length m_weight_table)%nat ->
  min_candidate NetDest intersectionIsNotEmpty m_weight_table row dest q w ->
  w <= INFINITE_ ->
  exists rnd,
    0 <= rnd
    /\ lookupRoutingTable NetDest intersectionIsNotEmpty INFINITE_ isVNetOrdered
         m_routing_table m_weight_table dest vnet rnd = Ret (Z.of_nat q).
Proof.
  intros Hun Hv Hrow Hlen [Hq Hminq] Hw.
  destruct (lookup_shape NetDest intersectionIsNotEmpty INFINITE_ isVNetOrdered
              m_routing_table m_weight_table dest vnet row Hv Hrow Hlen)
    as (mw & l & _ & Hmem & Hlow & _ & Hnil & Hrun).
  assert (Hne : l <> []).
  { intros Hl. apply Hnil in Hl. apply Hl. by exists q, w. }
  assert (Hw' : w = mw).
  { destruct l as [|x l']; [done|].
    assert (Hx : x ∈ x :: l') by by left.
    apply Hmem in Hx. specialize (Hminq _ _ Hx). specialize (Hlow _ _ Hq). lia. }
  subst w. apply Hmem in Hq. apply list_elem_of_lookup_1 in Hq as [i Hi].
  pose proof (lookup_lt_Some _ _ _ Hi) as Hlt.
  exists (Z.of_nat i). split; [lia|]. rewrite Hrun.
  destruct l as [|x l']; [done|].
  change (length (x :: l') =? 0)%nat with false. cbv iota zeta.
  rewrite Hun. simpl negb. cbv iota.
  rewrite Z.rem_small by lia.
  destruct (Z.ltb_spec (Z.of_nat i) 0); [lia|].
  by rewrite Nat2Z.id, Hi.
Qed.

(** *** The loops under a longer row and a longer weight table *)

Lemma min_weight_loop_weights (wt1 wt2 : list Z) (dest : NetDest)
    (row : list NetDest) :
  forall k m,
    (forall i, (i < length row)%nat -> wt1 !! (k + i)%nat = wt2 !! (k + i)%nat) ->
    min_weight_loop NetDest intersectionIsNotEmpty wt1 dest row k m
    = min_weight_loop NetDest intersectionIsNotEmpty wt2 dest row k m.
Proof.
  induction row as [|e rest IH]; intros k m Hagree; simpl; [reflexivity|].
  assert (Hk : wt1 !! k = wt2 !! k).
  { specialize (Hagree O ltac:(simpl; lia)). by rewrite Nat.add_0_r in Hagree. }
  assert (Hrest : forall m', min_weight_loop NetDest intersectionIsNotEmpty wt1 dest rest (S k) m'
                  = min_weight_loop NetDest intersectionIsNotEmpty wt2 dest rest (S k) m').
  { intros m'. apply IH. intros i Hi.
    specialize (Hagree (S i) ltac:(simpl; lia)).
    by replace (k + S i)%nat with (S k + i)%nat in Hagree by lia. }
  rewrite Hk. destruct (intersectionIsNotEmpty dest e); [|apply Hrest].
  destruct (wt2 !! k); [apply Hrest | reflexivity].
Qed.

Lemma collect_loop_weights (wt1 wt2 : list Z) (dest : NetDest)
    (row : list NetDest) (mw : Z) :
  forall k n acc,
    (forall i, (i < length row)%nat -> wt1 !! (k + i)%nat = wt2 !! (k + i)%nat) ->
    collect_loop NetDest intersectionIsNotEmpty wt1 dest row k mw n acc
    = collect_loop NetDest intersectionIsNotEmpty wt2 dest row k mw n acc.
Proof.
  induction row as [|e rest IH]; intros k n acc Hagree; simpl; [reflexivity|].
  assert (Hk : wt1 !! k = wt2 !! k).
  { specialize (Hagree O ltac:(simpl; lia)). by rewrite Nat.add_0_r in Hagree. }
  assert (Hrest : forall n' acc',
            collect_loop NetDest intersectionIsNotEmpty wt1 dest rest (S k) mw n' acc'
            = collect_loop NetDest intersectionIsNotEmpty wt2 dest rest (S k) mw n' acc').
  { intros n' acc'. apply IH. intros i Hi.
    specialize (Hagree (S i) ltac:(simpl; lia)).
    by replace (k + S i)%nat with (S k + i)%nat in Hagree by lia. }
  rewrite Hk. destruct (intersectionIsNotEmpty dest e); [|apply Hrest].
  destruct (wt2 !! k); [|reflexivity]. destruct (_ =? _); apply Hrest.
Qed.

Lemma min_weight_loop_snoc (wt : list Z) (dest : NetDest) (row : list NetDest)
    (e : NetDest) :
  intersectionIsNotEmpty dest e = false ->
  forall k m,
    min_weight_loop NetDest intersectionIsNotEmpty wt dest (row ++ [e]) k m
    = min_weight_loop NetDest intersectionIsNotEmpty wt dest row k m.
Proof.
  intros He. induction row as [|x rest IH]; intros k m; simpl.
  - by rewrite He.
  - destruct (intersectionIsNotEmpty dest x); [|apply IH].
    destruct (wt !! k); [apply IH | reflexivity].
Qed.

Lemma collect_loop_snoc (wt : list Z) (dest : NetDest) (row : list NetDest)
    (e : NetDest) (mw : Z) :
  intersectionIsNotEmpty dest e = false ->
  forall k n acc,
    collect_loop NetDest intersectionIsNotEmpty wt dest (row ++ [e]) k mw n acc
    = collect_loop NetDest intersectionIsNotEmpty wt dest row k mw n acc.
Proof.
  intros He. induction row as [|x rest IH]; intros k n acc; simpl.
  - by rewrite He.
  - destruct (intersectionIsNotEmpty dest x); [|apply IH].
    destruct (wt !! k); [|reflexivity]. destruct (_ =? _); apply IH.
Qed.

Lemma push_entries_lookup (table : list (list NetDest)) (entry : list NetDest) :
  forall v e,
    entry !! v = Some e ->
    push_entries NetDest table entry !! v
    = Some (default [] (table !! v) ++ [e]).
Proof.
  revert table. induction entry as [|e0 entry IH]; intros table v e Hv.
  - by rewrite lookup_nil in Hv.
  - destruct table as [|row table]; destruct v as [|v]; simpl in *.
    + by injection Hv as ->.
    + rewrite (IH [] v e Hv). by rewrite lookup_nil.
    + by injection Hv as ->.
    + apply (IH table v e Hv).
Qed.

Lemma push_entries_keeps (table : list (list NetDest)) (entry : list NetDest) :
  forall v row,
    table !! v = Some row ->
    exists row', push_entries NetDest table entry !! v = Some row'
                 /\ (row' = row \/ exists e, row' = row ++ [e]).
Proof.
  revert table. induction entry as [|e0 entry IH]; intros table v row Hv.
  - exists row. split; [by destruct table | by left].
  - destruct table as [|r table]; [by rewrite lookup_nil in Hv|].
    destruct v as [|v]; simpl in *.
    + injection Hv as ->. exists (row ++ [e0]). split; [done|]. right. by exists e0.
    + apply (IH table v row Hv).
Qed.

Lemma push_entries_length (table : list (list NetDest)) (entry : list NetDest) :
  length (push_entries NetDest table entry) = Nat.max (length table) (length entry).
Proof.
  revert table. induction entry as [|e0 entry IH]; intros table.
  - destruct table; simpl; lia.
  - destruct table as [|r table]; simpl; rewrite IH; simpl; lia.
Qed.

Lemma push_entries_rows (table : list (list NetDest)) (entry : list NetDest) :
  forall v row',
    push_entries NetDest table entry !! v = Some row' ->
    table !! v = Some row'
    \/ exists e, entry !! v = Some e /\ row' = default [] (table !! v) ++ [e].
Proof.
  intros v row' Hv. destruct (entry !! v) as [e|] eqn:He.
  - right. exists e. split; [done|].
    rewrite (push_entries_lookup table entry v e He) in Hv. by injection Hv.
  - left. apply lookup_ge_None in He.
    revert table v Hv He. induction entry as [|e0 entry IH]; intros table v Hv He.
    + by destruct table.
    + destruct v as [|v]; simpl in He; [lia|].
      destruct table as [|r table]; simpl in Hv.
      * apply IH in Hv; [|lia]. by rewrite lookup_nil in Hv.
      * simpl. apply IH; [exact Hv | lia].
Qed.

(** X3: registering a link whose route for the virtual network does not
    intersect the destination ([addRoute] followed by [addWeight]) does not
    change what [lookupRoutingTable] answers for that destination. *)
Theorem lookup_ignores_unrelated_link
    (m_routing_table : list (list NetDest)) (m_weight_table : list Z)
    (routing_table_entry : list NetDest) (link_weight : Z)
    (dest : NetDest) (vnet : Z) (row : list NetDest) (e : NetDest) (rnd : Z) :
  0 <= vnet ->
  m_routing_table !! Z.to_nat vnet = Some row ->
  (length row <= length m_weight_table)%nat ->
  routing_table_entry !! Z.to_nat vnet = Some e ->
  intersectionIsNotEmpty dest e = false ->
  lookupRoutingTable NetDest intersectionIsNotEmpty INFINITE_ isVNetOrdered
    (addRoute NetDest m_routing_table routing_table_entry)
    (addWeight m_weight_table link_weight) dest vnet rnd
  = lookupRoutingTable NetDest intersectionIsNotEmpty INFINITE_ isVNetOrdered
      m_routing_table m_weight_table dest vnet rnd.
Proof.
  intros Hv Hrow Hlen He Hno. unfold lookupRoutingTable, addRoute, addWeight.
  destruct (Z.ltb_spec vnet 0); [lia|].
  rewrite (push_entries_lookup _ _ _ _ He), Hrow. simpl default.
  assert (Hagree : forall i, (i < length row)%nat ->
            (m_weight_table ++ [link_weight]) !! (0 + i)%nat
            = m_weight_table !! (0 + i)%nat).
  { intros i Hi. apply lookup_app_l. simpl. lia. }
  rewrite (min_weight_loop_snoc _ _ _ _ Hno).
  rewrite (min_weight_loop_weights _ _ _ _ _ _ Hagree).
  destruct (min_weight_loop _ _ _ _ _ _ _) as [mw|f]; [|reflexivity]. simpl.
  rewrite (collect_loop_snoc _ _ _ _ _ Hno).
  by rewrite (collect_loop_weights _ _ _ _ _ _ _ _ Hagree).
Qed.

(** X4: [addRoute] followed by [addWeight] keeps every row of the routing table
    within the weight table, keeps every link under its index, and leaves
    [max] of the two lengths as the number of rows; the tables of a new
    routing unit are empty and so within each other. *)
Theorem addRoute_addWeight_cover
    (m_routing_table : list (list NetDest)) (m_weight_table : list Z)
    (routing_table_entry : list NetDest) (link_weight : Z) :
  Forall (fun row => (length row <= length m_weight_table)%nat) m_routing_table ->
  Forall (fun row => (length row <= length (addWeight m_weight_table link_weight))%nat)
    (addRoute NetDest m_routing_table routing_table_entry)
  /\ length (addRoute NetDest m_routing_table routing_table_entry)
     = Nat.max (length m_routing_table) (length routing_table_entry)
  /\ (forall v row k x,
        m_routing_table !! v = Some row -> row !! k = Some x ->
        exists row', addRoute NetDest m_routing_table routing_table_entry !! v
                     = Some row'
                     /\ row' !! k = Some x)
  /\ (forall v e,
        routing_table_entry !! v = Some e ->
        exists row', addRoute NetDest m_routing_table routing_table_entry !! v
                     = Some row'
                     /\ row' !! (length (default [] (m_routing_table !! v))) = Some e).
Proof.
  intros Hcov. unfold addRoute, addWeight. split; [|split; [|split]].
  - apply Forall_lookup. intros v row' Hv. rewrite length_app. simpl.
    apply push_entries_rows in Hv as [Hv | (e & He & ->)].
    + rewrite Forall_lookup in Hcov. specialize (Hcov v row' Hv). simpl in Hcov. lia.
    + rewrite length_app. simpl. destruct (m_routing_table !! v) as [row|] eqn:Hr.
      * rewrite Forall_lookup in Hcov. specialize (Hcov v row Hr). simpl in *. lia.
      * simpl. lia.
  - apply push_entries_length.
  - intros v row k x Hv Hk.
    destruct (push_entries_keeps m_routing_table routing_table_entry v row Hv)
      as (row' & Hrow' & [Hsame | (e & Happ)]); exists row'; subst row'.
    + done.
    + split; [exact Hrow'|]. by apply lookup_app_l_Some.
  - intros v e He. eexists. split; [by apply push_entries_lookup|].
    by rewrite lookup_app_r, Nat.sub_diag by lia.
Qed.

(** X5: with every row as long as the weight table, registering a link
    ([addRoute] followed by [addWeight]) whose route intersects the
    destination and whose weight is at most [INFINITE_] and strictly below
    the weight of every candidate so far makes [lookupRoutingTable] return
    the new link, on ordered and unordered virtual networks alike. *)
Theorem lighter_link_takes_over
    (m_routing_table : list (list NetDest)) (m_weight_table : list Z)
    (routing_table_entry : list NetDest) (link_weight : Z)
    (dest : NetDest) (vnet : Z) (row : list NetDest) (e : NetDest) (rnd : Z) :
  0 <= vnet ->
  m_routing_table !! Z.to_nat vnet = Some row ->
  length row = length m_weight_table ->
  routing_table_entry !! Z.to_nat vnet = Some e ->
  intersectionIsNotEmpty dest e = true ->
  link_weight <= INFINITE_ ->
  (forall q wq,
     candidate NetDest intersectionIsNotEmpty m_weight_table row dest q wq ->
     link_weight < wq) ->
  lookupRoutingTable NetDest intersectionIsNotEmpty INFINITE_ isVNetOrdered
    (addRoute NetDest m_routing_table routing_table_entry)
    (addWeight m_weight_table link_weight) dest vnet rnd
  = Ret (Z.of_nat (length row)).
Proof.
  intros Hv Hrow Hlen He Hie Hw Hlighter. unfold addRoute, addWeight.
  assert (Hrow' : push_entries NetDest m_routing_table routing_table_entry
                    !! Z.to_nat vnet = Some (row ++ [e])).
  { by rewrite (push_entries_lookup _ _ _ _ He), Hrow. }
  destruct (lookup_shape NetDest intersectionIsNotEmpty INFINITE_ isVNetOrdered
              (push_entries NetDest m_routing_table routing_table_entry)
              (m_weight_table ++ [link_weight]) dest vnet (row ++ [e]) Hv Hrow'
              ltac:(rewrite !length_app; simpl; lia))
    as (mw & l & _ & Hmem & Hlow & Hsort & Hnil & Hrun).
  assert (Hnew : candidate NetDest intersectionIsNotEmpty
                   (m_weight_table ++ [link_weight]) (row ++ [e]) dest
                   (length row) link_weight).
  { exists e. split; [apply list_lookup_middle; reflexivity|]. split; [exact Hie|].
    rewrite Hlen. apply list_lookup_middle. reflexivity. }
  assert (Hall : forall x, x ∈ l -> x = length row).
  { intros x Hx. apply Hmem in Hx as (ex & Hx & Hiex & Hwx).
    pose proof (lookup_lt_Some _ _ _ Hx) as Hlt. rewrite length_app in Hlt.
    simpl in Hlt. destruct (decide (x = length row)) as [|Hne]; [done|]. exfalso.
    rewrite lookup_app_l in Hx by lia. rewrite lookup_app_l in Hwx by lia.
    assert (link_weight < mw) by (apply (Hlighter x); by exists ex).
    specialize (Hlow _ _ Hnew). lia. }
  assert (Hl : l = [length row]).
  { destruct l as [|x l'].
    - exfalso. apply Hnil; [reflexivity|]. by exists (length row), link_weight.
    - rewrite (Hall x) by by left. destruct l' as [|y l'']; [reflexivity|].
      exfalso. apply StronglySorted_inv in Hsort as [_ Hfa].
      apply Forall_inv in Hfa.
      rewrite (Hall x) in Hfa by by left.
      rewrite (Hall y) in Hfa by (right; by left). lia. }
  rewrite Hrun, Hl. simpl. rewrite Z.rem_1_r. by destruct (negb _).
Qed.

End TableMore.

(** ** Registration of ports *)

(** X6: registering a direction and an index that are both new keeps the two
    maps of the outports inverse to each other, and the new pair can be read
    back from either map; [addInDirection] does the same for the inports. *)
Theorem addDirection_keeps_inverse
    (maps : gmap string Z * gmap Z string) (dirn : string) (idx : Z) :
  inverse_maps maps ->
  fst maps !! dirn = None ->
  snd maps !! idx = None ->
  inverse_maps (addOutDirection_maps maps dirn idx)
  /\ fst (addOutDirection_maps maps dirn idx) !! dirn = Some idx
  /\ snd (addOutDirection_maps maps dirn idx) !! idx = Some dirn
  /\ inverse_maps (addInDirection maps dirn idx)
  /\ fst (addInDirection maps dirn idx) !! dirn = Some idx
  /\ snd (addInDirection maps dirn idx) !! idx = Some dirn.
Proof.
  intros Hinv Hd Hi.
  assert (Hnew : inverse_maps (<[dirn := idx]> (fst maps), <[idx := dirn]> (snd maps))).
  { intros d i. simpl. rewrite !lookup_insert.
    destruct (decide (dirn = d)) as [<-|Hnd], (decide (idx = i)) as [<-|Hni].
    - done.
    - split; [intros [=]; done|]. intros Hs. apply Hinv in Hs.
      rewrite Hd in Hs. discriminate.
    - split; [|intros [=]; done]. intros Hs. apply Hinv in Hs.
      rewrite Hi in Hs. discriminate.
    - apply Hinv. }
  unfold addOutDirection_maps, addOutDirection, addOutDirection_idx2dirn,
    addInDirection. simpl.
  rewrite !lookup_insert_eq. done.
Qed.

Lemma inverse_maps_first (dirn : string) (idx : Z) :
  inverse_maps (addOutDirection_maps (∅, ∅) dirn idx).
Proof.
  intros d i. unfold addOutDirection_maps, addOutDirection, addOutDirection_idx2dirn.
  simpl. rewrite !lookup_insert, !lookup_empty.
  destruct (decide (dirn = d)), (decide (idx = i)); naive_solver.
Qed.

(** X7: registering a direction again under another index overwrites its index
    but leaves the old index naming the direction: the two maps are no
    longer inverse to each other. *)
Theorem addOutDirection_again_leaves_stale_index
    (maps : gmap string Z * gmap Z string) (dirn : string) (old_idx new_idx : Z) :
  inverse_maps maps ->
  fst maps !! dirn = Some old_idx ->
  new_idx <> old_idx ->
  let maps' := addOutDirection_maps maps dirn new_idx in
  fst maps' !! dirn = Some new_idx
  /\ snd maps' !! old_idx = Some dirn
  /\ ~ inverse_maps maps'.
Proof.
  intros Hinv Hd Hne maps'.
  assert (H1 : fst maps' !! dirn = Some new_idx) by apply lookup_insert_eq.
  assert (H2 : snd maps' !! old_idx = Some dirn).
  { unfold maps', addOutDirection_maps, addOutDirection_idx2dirn. simpl.
    rewrite lookup_insert_ne by done. by apply Hinv. }
  split; [exact H1|]. split; [exact H2|].
  intros Hinv'. apply Hinv' in H2. congruence.
Qed.

(** ** Reading the port of a direction *)

Lemma dirn2idx_index_again (m m' : gmap string Z) (dirn : string) (idx : Z) :
  dirn2idx_index m dirn = (idx, m') -> dirn2idx_index m' dirn = (idx, m').
Proof.
  unfold dirn2idx_index. destruct (m !! dirn) as [i|] eqn:Hm; intros Heq;
    injection Heq as <- <-.
  - by rewrite Hm.
  - by rewrite lookup_insert_eq.
Qed.

Lemma dirn2idx_index_registered (m : gmap string Z) (dirn : string) (idx : Z) :
  dirn2idx_index (addOutDirection m dirn idx) dirn = (idx, addOutDirection m dirn idx).
Proof. unfold dirn2idx_index, addOutDirection. by rewrite lookup_insert_eq. Qed.

(** X8: the wireless egress directions of two different hubs are different, and
    none of them is a wired direction, ["Local"] or ["Unknown"]. *)
Theorem wireless_out_dirn_distinct (h1 h2 : Z) :
  h1 <> h2 ->
  wireless_out_dirn h1 <> wireless_out_dirn h2
  /\ ~ In (wireless_out_dirn h1)
         ["East"; "West"; "North"; "South"; "Local"; "Unknown"]%string.
Proof.
  intros Hne. unfold wireless_out_dirn. split.
  - intros Heq. apply Hne. apply (inj pretty). by simplify_eq/=.
  - simpl. intros [H | [H | [H | [H | [H | [H | []]]]]]]; discriminate.
Qed.

(** ** The dimension-order router: every outcome *)

Lemma xy_outport_dirn_outcome
    (num_rows num_cols my_id dest_id : Z) (inport_dirn : string) :
  let d := dirn_toward (coords num_cols my_id) (coords num_cols dest_id) in
  xy_outport_dirn num_rows num_cols my_id dest_id inport_dirn
  = if (num_rows >? 0) && (num_cols >? 0) && negb (my_id =? dest_id)
       && inport_allowed d inport_dirn
    then Ret d else Halt AssertionFailed.
Proof.
  intros d. subst d. unfold xy_outport_dirn, col_of, row_of.
  destruct (Z.gtb_spec num_rows 0) as [Hr|Hr]; [|reflexivity].
  destruct (Z.gtb_spec num_cols 0) as [Hc|Hc]; [|reflexivity].
  simpl andb. simpl bind.
  unfold dirn_toward, coords. simpl fst. simpl snd.
  rewrite !abs_diff_eqb, !abs_diff_gtb.
  destruct (Z.eqb_spec my_id dest_id) as [->|Hne].
  - by rewrite !Z.eqb_refl.
  - assert (Hdiff : coords num_cols my_id <> coords num_cols dest_id).
    { intros Heq. apply Hne. apply (coords_inj num_cols); [lia | exact Heq]. }
    unfold coords in Hdiff.
    destruct (Z.eqb_spec (Z.rem dest_id num_cols) (Z.rem my_id num_cols)) as [Hx|Hx];
      simpl negb; simpl andb.
    + destruct (Z.eqb_spec (Z.quot dest_id num_cols) (Z.quot my_id num_cols))
        as [Hy|Hy]; [exfalso; apply Hdiff; congruence|].
      simpl. destruct (_ >=? _); unfold inport_allowed; simpl;
        by match goal with |- context [assert ?b] => destruct b end.
    + simpl. destruct (_ >=? _); unfold inport_allowed; simpl;
        by match goal with |- context [assert ?b] => destruct b end.
Qed.

(** X9: for router ids that are non-negative [int]s, [outportComputeXY]
    never reaches its [panic]: it either stops on an assertion (mesh sizes
    not positive, destination equal to the router, or an inbound direction
    the guard excludes) or returns the port read for the direction toward
    the destination. *)
Theorem xy_outcome
    (num_rows num_cols my_id dest_id : Z) (inport_dirn : string)
    (m : gmap string Z) :
  valid_id my_id -> valid_id dest_id ->
  let d := dirn_toward (coords num_cols my_id) (coords num_cols dest_id) in
  outportComputeXY num_rows num_cols my_id dest_id inport_dirn m
  = (if (num_rows >? 0) && (num_cols >? 0) && negb (my_id =? dest_id)
        && inport_allowed d inport_dirn
     then Ret (dirn2idx_index m d) else Halt AssertionFailed)
  /\ outportComputeXY num_rows num_cols my_id dest_id inport_dirn m <> Halt Panic.
Proof.
  intros _ _ d. unfold outportComputeXY. rewrite xy_outport_dirn_outcome. fold d.
  by destruct (_ && _).
Qed.

(** X10: registering a direction with [addOutDirection] changes the answer of
    [outportComputeXY] only for calls that settle on that direction: those
    return the registered index and leave the map as it is; every other call
    returns what it returned before. *)
Theorem xy_after_registration
    (num_rows num_cols my_id dest_id : Z) (inport_dirn : string)
    (m : gmap string Z) (dirn : string) (idx : Z) (d0 : string) :
  xy_outport_dirn num_rows num_cols my_id dest_id inport_dirn = Ret d0 ->
  (d0 = dirn ->
     outportComputeXY num_rows num_cols my_id dest_id inport_dirn
       (addOutDirection m dirn idx)
     = Ret (idx, addOutDirection m dirn idx))
  /\ (d0 <> dirn ->
        outportComputeXY num_rows num_cols my_id dest_id inport_dirn
          (addOutDirection m dirn idx)
        = Ret (fst (dirn2idx_index m d0),
               addOutDirection (snd (dirn2idx_index m d0)) dirn idx)).
Proof.
  intros Hd. unfold outportComputeXY. rewrite Hd. simpl. split.
  - intros ->. by rewrite dirn2idx_index_registered.
  - intros Hne. unfold dirn2idx_index, addOutDirection.
    rewrite lookup_insert_ne by done.
    destruct (m !! d0); simpl; [done|]. by rewrite insert_insert_ne.
Qed.

(** X11: a routing call repeated on the map the first call left returns the same
    answer and leaves that map unchanged: a direction missing at first is
    inserted once. *)
Theorem routing_call_repeated
    (num_rows num_cols my_id : Z) (hybrid_connections : list (Z * list Z))
    (dest_id : Z) (inport_dirn : string) (m m' : gmap string Z) (r : Z * Z) :
  outportComputeCustom num_rows num_cols my_id hybrid_connections dest_id
    inport_dirn m = Ret (r, m') ->
  outportComputeCustom num_rows num_cols my_id hybrid_connections dest_id
    inport_dirn m' = Ret (r, m').
Proof.
  unfold outportComputeCustom. destruct (num_cols =? 0); [discriminate|].
  destruct (_ <? _).
  - destruct (at_hybrid_router my_id).
    + destruct (dirn2idx_index m _) as [p m1] eqn:Hread. intros Heq.
      injection Heq as <- <-. by rewrite (dirn2idx_index_again _ _ _ _ Hread).
    + destruct (dirn2idx_index m _) as [p m1] eqn:Hread. intros Heq.
      injection Heq as <- <-. by rewrite (dirn2idx_index_again _ _ _ _ Hread).
  - unfold outportComputeXY.
    destruct (xy_outport_dirn _ _ _ _ _) as [d|f]; [|discriminate]. simpl.
    destruct (dirn2idx_index m d) as [p m1] eqn:Hread. simpl. intros Heq.
    injection Heq as <- <-. by rewrite (dirn2idx_index_again _ _ _ _ Hread).
Qed.

(** ** The hybrid router: hop counts *)

(** X12: [calculateHops] is a metric on router ids (for [num_cols] other than 0):
    never negative, symmetric, zero exactly between a router and itself, and
    it satisfies the triangle inequality. *)
Theorem calculateHops_metric (num_cols a b c : Z) :
  num_cols <> 0 ->
  0 <= calculateHops num_cols a b
  /\ calculateHops num_cols a b = calculateHops num_cols b a
  /\ (calculateHops num_cols a b = 0 <-> a = b)
  /\ calculateHops num_cols a c
     <= calculateHops num_cols a b + calculateHops num_cols b c.
Proof.
  intros Hn. unfold calculateHops. split; [lia|]. split; [lia|]. split; [|lia].
  split.
  - intros H0. apply (coords_inj num_cols); [exact Hn|]. unfold coords.
    f_equal; lia.
  - intros ->. lia.
Qed.

Lemma calculateHops_nonneg (num_cols a b : Z) : 0 <= calculateHops num_cols a b.
Proof. unfold calculateHops. lia. Qed.

Lemma connections_index_in (hc : list (Z * list Z)) (id h : Z) :
  In h (connections_index hc id) -> In (id, connections_index hc id) hc.
Proof.
  induction hc as [|[k v] rest IH]; simpl; [done|].
  destruct (Z.eqb_spec k id) as [->|Hne]; intros Hh.
  - by left.
  - right. by apply IH.
Qed.

Section HybridMore.

Variable num_rows num_cols my_id : Z.
Variable hybrid_connections : list (Z * list Z).
Variable dest_id : Z.

Local Abbreviation the_search :=
  (hybrid_search num_cols my_id hybrid_connections dest_id).

(** What the search ends with: nothing found, or a link of the mapping with
    its hops. *)
Lemma hybrid_search_cases :
  the_search = search_init
  \/ exists h1 h2 l,
       In (h1, l) hybrid_connections /\ In h2 l
       /\ dest_hybrid_router the_search = h2
       /\ 1 <= hybrid_hops the_search.
Proof.
  destruct (at_hybrid_router my_id) eqn:Hat.
  - destruct (hybrid_search_hub num_cols my_id hybrid_connections dest_id Hat)
      as [_ [Hinit | (h & Hh & Hs)]]; [by left|].
    right. exists my_id, h, (connections_index hybrid_connections my_id).
    rewrite Hs. simpl. split; [by eapply connections_index_in|].
    split; [exact Hh|]. split; [reflexivity|].
    unfold egress_hops. pose proof (calculateHops_nonneg num_cols h dest_id). lia.
  - destruct (hybrid_search_elsewhere num_cols my_id hybrid_connections dest_id Hat)
      as [_ [Hinit | ([h1 h2] & Hp & Hs)]]; [by left|].
    right. apply all_pairs_entry in Hp as ([k l] & He & Hk & Hl). simpl in *.
    subst k. exists h1, h2, l. rewrite Hs. simpl.
    split; [exact He|]. split; [exact Hl|]. split; [reflexivity|].
    unfold wireless_path_hops. simpl.
    pose proof (calculateHops_nonneg num_cols my_id h1).
    pose proof (calculateHops_nonneg num_cols h2 dest_id). lia.
Qed.

(** X13: on calls whose hop counts fit an [int], the wireless shortcut is
    never taken over a distance of at most one hop: the destination itself
    and its mesh neighbours are routed by [outportComputeXY], with [-1] for
    the shortcut hub. *)
Theorem no_shortcut_within_one_hop (inport_dirn : string) (m : gmap string Z) :
  0 < num_cols ->
  hops_fit_int num_cols my_id dest_id hybrid_connections ->
  calculateHops num_cols my_id dest_id <= 1 ->
  outportComputeCustom num_rows num_cols my_id hybrid_connections dest_id
    inport_dirn m
  = wired_route num_rows num_cols my_id dest_id inport_dirn m.
Proof.
  intros Hn _ Hnear. assert (Hn0 : num_cols <> 0) by lia.
  rewrite (custom_decision _ _ _ _ _ _ _ Hn0).
  replace (_ <? _) with false; [reflexivity|]. symmetry. apply Z.ltb_ge.
  destruct hybrid_search_cases as [-> | (h1 & h2 & l & _ & _ & _ & Hge)].
  - simpl. unfold INT_MAX. lia.
  - lia.
Qed.

(** X14: with no wireless link in the mapping (no entry, or entries with empty
    lists only) every call between valid router ids is routed by
    [outportComputeXY], with [-1] for the shortcut hub. *)
Theorem no_links_means_wired (inport_dirn : string) (m : gmap string Z) :
  0 < num_cols ->
  valid_id my_id -> valid_id dest_id ->
  all_pairs hybrid_connections = [] ->
  outportComputeCustom num_rows num_cols my_id hybrid_connections dest_id
    inport_dirn m
  = wired_route num_rows num_cols my_id dest_id inport_dirn m.
Proof.
  intros Hn Hmy Hdest Hnone.
  assert (Hn0 : num_cols <> 0) by lia.
  rewrite (custom_decision _ _ _ _ _ _ _ Hn0).
  pose proof (calculateHops_bound num_cols my_id dest_id Hn Hmy Hdest) as Hxy.
  replace (_ <? _) with false; [reflexivity|]. symmetry. apply Z.ltb_ge.
  destruct hybrid_search_cases as [-> | (h1 & h2 & l & He & Hl & _ & _)].
  - simpl. lia.
  - exfalso. assert (In (h1, h2) (all_pairs hybrid_connections)) as Hin.
    { apply all_pairs_entry. by exists (h1, l). }
    rewrite Hnone in Hin. destruct Hin.
Qed.

(** X15: the shortcut hub a call returns is [-1] or an exit hub listed in the
    mapping. *)
Theorem shortcut_hub_is_configured
    (inport_dirn : string) (m m' : gmap string Z) (port hub : Z) :
  outportComputeCustom num_rows num_cols my_id hybrid_connections dest_id
    inport_dirn m = Ret ((port, hub), m') ->
  hub = -1 \/ exists entry, In entry hybrid_connections /\ In hub (snd entry).
Proof.
  unfold outportComputeCustom. destruct (num_cols =? 0); [discriminate|].
  assert (Hhub : dest_hybrid_router the_search = -1
                 \/ exists entry, In entry hybrid_connections
                                  /\ In (dest_hybrid_router the_search) (snd entry)).
  { destruct hybrid_search_cases as [-> | (h1 & h2 & l & He & Hl & <- & _)].
    - by left.
    - right. by exists (h1, l). }
  destruct (_ <? _).
  - destruct (at_hybrid_router my_id); destruct (dirn2idx_index m _);
      intros Heq; injection Heq as _ <- _; exact Hhub.
  - destruct (outportComputeXY _ _ _ _ _ _) as [pm|f]; [|discriminate].
    simpl. intros Heq. injection Heq as _ <- _. by left.
Qed.

End HybridMore.

(** *** Ties in the search *)

Section ArgMinFirst.

Variable X : Type.
Variables cost via exit : X -> Z.
Variable step : search -> X -> search.
Hypothesis step_eq : forall s x,
  step s x = if cost x <? hybrid_hops s then Search (cost x) (via x) (exit x) else s.

Lemma fold_step_stable (xs : list X) :
  forall s0,
    fold_left step xs s0 = s0
    \/ hybrid_hops (fold_left step xs s0) < hybrid_hops s0.
Proof.
  induction xs as [|x xs IH]; intros s0; simpl; [by left|].
  pose proof (fold_step_min X cost via exit step step_eq xs (step s0 x))
    as (Hle & _ & _).
  destruct (IH (step s0 x)) as [Hsame | Hlt]; rewrite step_eq in *;
    destruct (Z.ltb_spec (cost x) (hybrid_hops s0)); simpl in *.
  - right. rewrite Hsame. simpl. lia.
  - by left.
  - right. lia.
  - by right.
Qed.

(** When the loop lowers the hop count, what it keeps is the first element
    of least cost. *)
Lemma fold_step_first (xs : list X) :
  forall s0,
    hybrid_hops (fold_left step xs s0) < hybrid_hops s0 ->
    exists l1 x l2,
      xs = l1 ++ x :: l2
      /\ fold_left step xs s0 = Search (cost x) (via x) (exit x)
      /\ (forall y, In y l1 -> cost x < cost y)
      /\ (forall y, In y l2 -> cost x <= cost y).
Proof.
  induction xs as [|x xs IH]; intros s0; simpl; [lia|]. intros Hlt.
  pose proof (fold_step_min X cost via exit step step_eq xs (step s0 x))
    as (Hle & Hlow & _).
  destruct (fold_step_stable xs (step s0 x)) as [Hsame | Hless].
  - rewrite Hsame in *. rewrite step_eq in *.
    destruct (Z.ltb_spec (cost x) (hybrid_hops s0)); simpl in *; [|lia].
    exists [], x, xs. split; [reflexivity|]. split; [reflexivity|].
    split; [intros y []|exact Hlow].
  - destruct (IH _ Hless) as (l1 & y & l2 & -> & Hs & Hbefore & Hafter).
    exists (x :: l1), y, l2. split; [reflexivity|]. split; [exact Hs|].
    split; [|exact Hafter].
    intros z [<- | Hz]; [|by apply Hbefore].
    rewrite Hs in Hless, Hlt. simpl in Hless, Hlt. rewrite step_eq in Hless.
    destruct (Z.ltb_spec (cost x) (hybrid_hops s0)); simpl in Hless; lia.
Qed.

End ArgMinFirst.

(** X16: on calls whose hop counts fit an [int], among links of equal hops
    the search keeps the first one in the order of the loops: at one of the
    routers 18, 45, 50, 21 the first hub of the router's own list with the
    least hops, elsewhere the first pair of the mapping with the least hops;
    every earlier one has strictly more hops. *)
Theorem hybrid_search_keeps_first_minimum
    (num_cols my_id : Z) (hybrid_connections : list (Z * list Z)) (dest_id : Z) :
  0 < num_cols ->
  hops_fit_int num_cols my_id dest_id hybrid_connections ->
  hybrid_hops (hybrid_search num_cols my_id hybrid_connections dest_id) < INT_MAX ->
  (at_hybrid_router my_id = true ->
     exists l1 h l2,
       connections_index hybrid_connections my_id = l1 ++ h :: l2
       /\ hybrid_search num_cols my_id hybrid_connections dest_id
          = Search (egress_hops num_cols dest_id h) h h
       /\ (forall y, In y l1 ->
             egress_hops num_cols dest_id h < egress_hops num_cols dest_id y)
       /\ (forall y, In y l2 ->
             egress_hops num_cols dest_id h <= egress_hops num_cols dest_id y))
  /\ (at_hybrid_router my_id = false ->
        exists l1 p l2,
          all_pairs hybrid_connections = l1 ++ p :: l2
          /\ hybrid_search num_cols my_id hybrid_connections dest_id
             = Search (wireless_path_hops num_cols my_id dest_id p) (fst p) (snd p)
          /\ (forall y, In y l1 ->
                wireless_path_hops num_cols my_id dest_id p
                < wireless_path_hops num_cols my_id dest_id y)
          /\ (forall y, In y l2 ->
                wireless_path_hops num_cols my_id dest_id p
                <= wireless_path_hops num_cols my_id dest_id y)).
Proof.
  intros _ _ Hlt. split; intros Hat; unfold hybrid_search in *; rewrite Hat in *.
  - apply (fold_step_first Z (egress_hops num_cols dest_id) id id
             (hub_body num_cols dest_id) ltac:(reflexivity)). exact Hlt.
  - rewrite entries_fold_pairs in *.
    apply (fold_step_first (Z * Z) (wireless_path_hops num_cols my_id dest_id)
             fst snd (pair_step num_cols my_id dest_id) ltac:(reflexivity)).
    exact Hlt.
Qed.

(** X17: at one of the routers 18, 45, 50, 21, a call whose hop counts fit an
    [int] and that takes the hybrid path leaves through the wireless egress of a hub
    [h] of the router's own list, the one with the least hops to the
    destination, and returns [h] as the shortcut hub; when that egress is
    registered the call returns its index and leaves the map as it is. *)
Theorem hub_takes_own_egress
    (num_rows num_cols my_id : Z) (hybrid_connections : list (Z * list Z))
    (dest_id : Z) (inport_dirn : string) (m : gmap string Z) :
  0 < num_cols ->
  hops_fit_int num_cols my_id dest_id hybrid_connections ->
  at_hybrid_router my_id = true ->
  hybrid_hops (hybrid_search num_cols my_id hybrid_connections dest_id)
    < calculateHops num_cols my_id dest_id ->
  exists h,
    In h (connections_index hybrid_connections my_id)
    /\ (forall h', In h' (connections_index hybrid_connections my_id) ->
          egress_hops num_cols dest_id h <= egress_hops num_cols dest_id h')
    /\ egress_hops num_cols dest_id h < calculateHops num_cols my_id dest_id
    /\ outportComputeCustom num_rows num_cols my_id hybrid_connections dest_id
         inport_dirn m
       = Ret ((fst (dirn2idx_index m (wireless_out_dirn h)), h),
              snd (dirn2idx_index m (wireless_out_dirn h)))
    /\ (forall idx, m !! wireless_out_dirn h = Some idx ->
          outportComputeCustom num_rows num_cols my_id hybrid_connections dest_id
            inport_dirn m
          = Ret ((idx, h), m)).
Proof.
  intros Hn (Hmy & Hdest & _) Hat Hlt.
  pose proof (calculateHops_bound num_cols my_id dest_id Hn Hmy Hdest) as Hxy.
  destruct (hybrid_search_hub num_cols my_id hybrid_connections dest_id Hat)
    as [(_ & Hlow & _) [Hinit | (h & Hh & Hs)]].
  { rewrite Hinit in Hlt. simpl in Hlt. lia. }
  assert (Hrun : outportComputeCustom num_rows num_cols my_id hybrid_connections
                   dest_id inport_dirn m
                 = Ret ((fst (dirn2idx_index m (wireless_out_dirn h)), h),
                        snd (dirn2idx_index m (wireless_out_dirn h)))).
  { assert (Hn0 : num_cols <> 0) by lia.
    rewrite (custom_decision _ _ _ _ _ _ _ Hn0).
    apply Z.ltb_lt in Hlt as ->. unfold hybrid_route. by rewrite Hat, Hs. }
  exists h. split; [exact Hh|]. split.
  { intros h' Hh'. rewrite Hs in Hlow. simpl in Hlow. apply Hlow.
    by apply in_map. }
  split; [by rewrite Hs in Hlt|]. split; [exact Hrun|].
  intros idx Hidx. rewrite Hrun. unfold dirn2idx_index. by rewrite Hidx.
Qed.

(** ** Walking the dimension-order route *)

Section Walk.

Variable num_rows num_cols : Z.
Hypothesis rows_pos : num_rows > 0.
Hypothesis cols_pos : num_cols > 0.

Lemma coords_encode (x y : Z) :
  0 <= x < num_cols -> 0 <= y -> coords num_cols (x + num_cols * y) = (x, y).
Proof.
  intros Hx Hy. unfold coords.
  assert (0 <= x + num_cols * y) by nia.
  rewrite Z.rem_mod_nonneg, Z.quot_div_nonneg by lia.
  f_equal.
  - symmetry. apply (Z.mod_unique _ _ y); [lia | ring].
  - symmetry. apply (Z.div_unique _ _ _ x); [lia | ring].
Qed.

Lemma xy_dirn_at (x y dx dy : Z) (inport_dirn : string) :
  0 <= x < num_cols -> 0 <= y -> 0 <= dx < num_cols -> 0 <= dy ->
  (x, y) <> (dx, dy) ->
  inport_allowed (dirn_toward (x, y) (dx, dy)) inport_dirn = true ->
  xy_outport_dirn num_rows num_cols (x + num_cols * y) (dx + num_cols * dy)
    inport_dirn
  = Ret (dirn_toward (x, y) (dx, dy)).
Proof.
  intros Hx Hy Hdx Hdy Hne Hall. rewrite xy_outport_dirn_outcome.
  rewrite !coords_encode by assumption. rewrite Hall.
  replace (num_rows >? 0) with true by (symmetry; apply Z.gtb_lt; lia).
  replace (num_cols >? 0) with true by (symmetry; apply Z.gtb_lt; lia).
  destruct (Z.eqb_spec (x + num_cols * y) (dx + num_cols * dy)) as [Heq|]; [|done].
  exfalso. apply Hne. rewrite <- (coords_encode x y), <- (coords_encode dx dy)
    by assumption. by rewrite Heq.
Qed.

Lemma walk_arrived (fuel : nat) (id : Z) (inport_dirn : string) :
  xy_walk fuel num_rows num_cols id id inport_dirn = Ret (id, []).
Proof. destruct fuel; simpl; [done|]. by rewrite Z.eqb_refl. Qed.

Lemma walk_step (fuel : nat) (x y dx dy : Z) (inport_dirn : string) :
  0 <= x < num_cols -> 0 <= y -> 0 <= dx < num_cols -> 0 <= dy ->
  (x, y) <> (dx, dy) ->
  inport_allowed (dirn_toward (x, y) (dx, dy)) inport_dirn = true ->
  let d := dirn_toward (x, y) (dx, dy) in
  xy_walk (S fuel) num_rows num_cols (x + num_cols * y) (dx + num_cols * dy)
    inport_dirn
  = (r <- xy_walk fuel num_rows num_cols
            (neighbour num_cols (x + num_cols * y) d) (dx + num_cols * dy)
            (opposite d) ;;
     Ret (fst r, d :: snd r)).
Proof.
  intros Hx Hy Hdx Hdy Hne Hall d. simpl.
  destruct (Z.eqb_spec (x + num_cols * y) (dx + num_cols * dy)) as [Heq|].
  - exfalso. apply Hne. rewrite <- (coords_encode x y), <- (coords_encode dx dy)
      by assumption. by rewrite Heq.
  - by rewrite xy_dirn_at.
Qed.

Lemma walk_north (x dy : Z) (n : nat) :
  0 <= x < num_cols ->
  forall (y : Z) (fuel : nat) (inport_dirn : string),
    0 <= y -> dy = y + Z.of_nat n -> (n <= fuel)%nat ->
    String.eqb inport_dirn "North" = false ->
    xy_walk fuel num_rows num_cols (x + num_cols * y) (x + num_cols * dy) inport_dirn
    = Ret (x + num_cols * dy, repeat "North"%string n).
Proof.
  intros Hx. induction n as [|n IH]; intros y fuel inport_dirn Hy Hdy Hfuel Hin.
  - replace dy with y by lia. apply walk_arrived.
  - destruct fuel as [|fuel]; [lia|].
    assert (Hd : dirn_toward (x, y) (x, dy) = "North"%string).
    { unfold dirn_toward. simpl. rewrite Z.eqb_refl. simpl.
      by replace (dy >=? y) with true by (symmetry; apply Z.geb_le; lia). }
    rewrite walk_step; try lia.
    + rewrite Hd. unfold neighbour, opposite. simpl.
      replace (x + num_cols * y + num_cols) with (x + num_cols * (y + 1)) by ring.
      rewrite (IH (y + 1) fuel "South"%string); [done | lia | lia | lia | done].
    + intros [=]. lia.
    + rewrite Hd. unfold inport_allowed. simpl. by rewrite Hin.
Qed.

Lemma walk_south (x dy : Z) (n : nat) :
  0 <= x < num_cols -> 0 <= dy ->
  forall (y : Z) (fuel : nat) (inport_dirn : string),
    dy = y - Z.of_nat n -> (n <= fuel)%nat ->
    String.eqb inport_dirn "South" = false ->
    xy_walk fuel num_rows num_cols (x + num_cols * y) (x + num_cols * dy) inport_dirn
    = Ret (x + num_cols * dy, repeat "South"%string n).
Proof.
  intros Hx Hdy0. induction n as [|n IH]; intros y fuel inport_dirn Hdy Hfuel Hin.
  - replace dy with y by lia. apply walk_arrived.
  - destruct fuel as [|fuel]; [lia|].
    assert (Hd : dirn_toward (x, y) (x, dy) = "South"%string).
    { unfold dirn_toward. simpl. rewrite Z.eqb_refl. simpl.
      by replace (dy >=? y) with false by (symmetry; rewrite Z.geb_leb; apply Z.leb_gt; lia). }
    rewrite walk_step; try lia.
    + rewrite Hd. unfold neighbour, opposite. simpl.
      replace (x + num_cols * y - num_cols) with (x + num_cols * (y - 1)) by ring.
      rewrite (IH (y - 1) fuel "North"%string); [done | lia | lia | done].
    + intros [=]. lia.
    + rewrite Hd. unfold inport_allowed. simpl. by rewrite Hin.
Qed.

Lemma walk_vertical (x y dy : Z) (fuel : nat) (inport_dirn : string) :
  0 <= x < num_cols -> 0 <= y -> 0 <= dy ->
  (Z.to_nat (Z.abs (dy - y)) <= fuel)%nat ->
  String.eqb inport_dirn "North" = false ->
  String.eqb inport_dirn "South" = false ->
  xy_walk fuel num_rows num_cols (x + num_cols * y) (x + num_cols * dy) inport_dirn
  = Ret (x + num_cols * dy,
         repeat (if dy >=? y then "North" else "South")%string
           (Z.to_nat (Z.abs (dy - y)))).
Proof.
  intros Hx Hy Hdy Hfuel HN HS. destruct (Z.geb_spec dy y).
  - apply walk_north; try done; lia.
  - apply walk_south; try done; lia.
Qed.

Lemma walk_east (y dx dy : Z) (n : nat) :
  0 <= y -> 0 <= dx < num_cols -> 0 <= dy ->
  forall (x : Z) (fuel : nat) (inport_dirn : string),
    0 <= x -> dx = x + Z.of_nat n ->
    (n + Z.to_nat (Z.abs (dy - y)) <= fuel)%nat ->
    inport_dirn = "Local"%string \/ inport_dirn = "West"%string ->
    xy_walk fuel num_rows num_cols (x + num_cols * y) (dx + num_cols * dy) inport_dirn
    = Ret (dx + num_cols * dy,
           repeat "East"%string n
           ++ repeat (if dy >=? y then "North" else "South")%string
                (Z.to_nat (Z.abs (dy - y)))).
Proof.
  intros Hy Hdx Hdy. induction n as [|n IH]; intros x fuel inport_dirn Hx Hn Hfuel Hin.
  - replace x with dx by lia. apply walk_vertical; try done; try lia;
      by destruct Hin as [-> | ->].
  - destruct fuel as [|fuel]; [lia|].
    assert (Hd : dirn_toward (x, y) (dx, dy) = "East"%string).
    { unfold dirn_toward. simpl.
      replace (dx =? x) with false by (symmetry; apply Z.eqb_neq; lia). simpl.
      by replace (dx >=? x) with true by (symmetry; apply Z.geb_le; lia). }
    rewrite walk_step; try lia.
    + rewrite Hd. unfold neighbour, opposite. simpl.
      replace (x + num_cols * y + 1) with ((x + 1) + num_cols * y) by ring.
      rewrite (IH (x + 1) fuel "West"%string); [done | lia | lia | lia | by right].
    + intros [=]. lia.
    + rewrite Hd. by destruct Hin as [-> | ->].
Qed.

Lemma walk_west (y dx dy : Z) (n : nat) :
  0 <= y -> 0 <= dx -> 0 <= dy ->
  forall (x : Z) (fuel : nat) (inport_dirn : string),
    x < num_cols -> dx = x - Z.of_nat n ->
    (n + Z.to_nat (Z.abs (dy - y)) <= fuel)%nat ->
    inport_dirn = "Local"%string \/ inport_dirn = "East"%string ->
    xy_walk fuel num_rows num_cols (x + num_cols * y) (dx + num_cols * dy) inport_dirn
    = Ret (dx + num_cols * dy,
           repeat "West"%string n
           ++ repeat (if dy >=? y then "North" else "South")%string
                (Z.to_nat (Z.abs (dy - y)))).
Proof.
  intros Hy Hdx Hdy. induction n as [|n IH]; intros x fuel inport_dirn Hx Hn Hfuel Hin.
  - replace x with dx by lia. apply walk_vertical; try done; try lia;
      by destruct Hin as [-> | ->].
  - destruct fuel as [|fuel]; [lia|].
    assert (Hd : dirn_toward (x, y) (dx, dy) = "West"%string).
    { unfold dirn_toward. simpl.
      replace (dx =? x) with false by (symmetry; apply Z.eqb_neq; lia). simpl.
      by replace (dx >=? x) with false by (symmetry; rewrite Z.geb_leb; apply Z.leb_gt; lia). }
    rewrite walk_step; try lia.
    + rewrite Hd. unfold neighbour, opposite. simpl.
      replace (x + num_cols * y - 1) with ((x - 1) + num_cols * y) by ring.
      rewrite (IH (x - 1) fuel "East"%string); [done | lia | lia | lia | by right].
    + intros [=]. lia.
    + rewrite Hd. by destruct Hin as [-> | ->].
Qed.

End Walk.

(** X18: a packet injected at a router of the mesh and forwarded by
    [outportComputeXY] from router to router reaches the destination router
    after exactly the Manhattan distance in hops, all horizontal hops first
    and all vertical hops after them, and no assertion on the inbound
    direction fails on the way. *)
Theorem xy_walk_reaches_destination
    (num_rows num_cols my_id dest_id : Z) (fuel : nat) :
  num_rows > 0 -> num_cols > 0 ->
  in_mesh num_rows num_cols my_id -> in_mesh num_rows num_cols dest_id ->
  manhattan (coords num_cols my_id) (coords num_cols dest_id) <= Z.of_nat fuel ->
  let here := coords num_cols my_id in
  let there := coords num_cols dest_id in
  xy_walk fuel num_rows num_cols my_id dest_id "Local"
  = Ret (dest_id,
         repeat (if fst there >=? fst here then "East" else "West")%string
           (Z.to_nat (Z.abs (fst there - fst here)))
         ++ repeat (if snd there >=? snd here then "North" else "South")%string
              (Z.to_nat (Z.abs (snd there - snd here)))).
Proof.
  intros Hr Hc [Hm0 _] [Hd0 _] Hfuel here there.
  unfold manhattan in Hfuel. fold here there in Hfuel.
  unfold here, there, coords in *. simpl fst in *. simpl snd in *.
  rewrite !Z.rem_mod_nonneg, !Z.quot_div_nonneg in * by lia.
  pose proof (Z.div_mod my_id num_cols ltac:(lia)) as Em.
  pose proof (Z.div_mod dest_id num_cols ltac:(lia)) as Ed.
  pose proof (Z.mod_pos_bound my_id num_cols ltac:(lia)) as Bm.
  pose proof (Z.mod_pos_bound dest_id num_cols ltac:(lia)) as Bd.
  pose proof (Z.div_pos my_id num_cols Hm0 ltac:(lia)) as Dm.
  pose proof (Z.div_pos dest_id num_cols Hd0 ltac:(lia)) as Dd.
  set (x := my_id mod num_cols) in *. set (y := my_id / num_cols) in *.
  set (dx := dest_id mod num_cols) in *. set (dy := dest_id / num_cols) in *.
  replace my_id with (x + num_cols * y) by lia.
  replace dest_id with (dx + num_cols * dy) by lia.
  destruct (Z.geb_spec dx x).
  - apply walk_east; try done; try lia. by left.
  - apply walk_west; try done; try lia. by left.
Qed.

(** ** The dispatcher *)

Section DispatchFacts.

Variable NetDest : Type.
Variable intersectionIsNotEmpty : NetDest -> NetDest -> bool.
Variable INFINITE_ : Z.
Variable isVNetOrdered : Z -> bool.
Variable m_routing_table : list (list NetDest).
Variable m_weight_table : list Z.
Variable num_rows num_cols my_id : Z.
Variable routing_algorithm : RoutingAlgorithm.
Variable hybrid_connections : list (Z * list Z).

Lemma lookup_nonneg (dest : NetDest) (vnet rnd p : Z) :
  lookupRoutingTable NetDest intersectionIsNotEmpty INFINITE_ isVNetOrdered
    m_routing_table m_weight_table dest vnet rnd = Ret p ->
  0 <= p.
Proof.
  unfold lookupRoutingTable.
  destruct (if vnet <? 0 then None else _) as [row|]; [|discriminate].
  destruct (min_weight_loop _ _ _ _ _ _ _) as [mw|]; [|discriminate]. simpl.
  destruct (collect_loop _ _ _ _ _ _ _ _ _) as [[n l]|]; [|discriminate]. simpl.
  destruct (_ =? _)%nat; [discriminate|].
  destruct (if _ <? 0 then None else _) as [o|]; [|discriminate].
  intros [= <-]. lia.
Qed.

(** X19: with table routing (or any algorithm the switch does not name), and at
    the destination router under every algorithm, [outportCompute] is the
    table lookup with [-1] for the shortcut hub and the map of directions
    untouched: mesh sizes, hubs and the inbound direction are not consulted,
    and the final assertion cannot fail. *)
Theorem outportCompute_by_table
    (vnet : Z) (net_dest : NetDest) (dest_router : Z) (inport_dirn : string)
    (rnd : Z) (m : gmap string Z) :
  dest_router = my_id \/ routing_algorithm = TABLE_ \/ routing_algorithm = OTHER_ ->
  outportCompute NetDest intersectionIsNotEmpty INFINITE_ isVNetOrdered
    m_routing_table m_weight_table num_rows num_cols my_id routing_algorithm
    hybrid_connections vnet net_dest dest_router inport_dirn rnd m
  = (outport <- lookupRoutingTable NetDest intersectionIsNotEmpty INFINITE_
                  isVNetOrdered m_routing_table m_weight_table net_dest vnet rnd ;;
     Ret ((outport, -1), m)).
Proof.
  intros Hcase. unfold outportCompute.
  destruct (Z.eqb_spec dest_router my_id) as [Heq|Hne]; [reflexivity|].
  assert (Htable : routing_algorithm = TABLE_ \/ routing_algorithm = OTHER_)
    by (destruct Hcase as [? | ?]; [contradiction | assumption]).
  destruct (lookupRoutingTable _ _ _ _ _ _ net_dest vnet rnd) as [p|f] eqn:Hlook.
  - apply lookup_nonneg in Hlook.
    destruct Htable as [-> | ->]; simpl;
      by replace (p =? -1) with false by (symmetry; apply Z.eqb_neq; lia).
  - by destruct Htable as [-> | ->].
Qed.

(** X20: whatever [outportCompute] returns, the port is not [-1]; a shortcut hub
    other than [-1] comes only from the custom algorithm away from the
    destination router, and the map of directions can only have changed
    under the XY or the custom algorithm away from the destination router. *)
Theorem outportCompute_postcondition
    (vnet : Z) (net_dest : NetDest) (dest_router : Z) (inport_dirn : string)
    (rnd : Z) (m m' : gmap string Z) (port hub : Z) :
  outportCompute NetDest intersectionIsNotEmpty INFINITE_ isVNetOrdered
    m_routing_table m_weight_table num_rows num_cols my_id routing_algorithm
    hybrid_connections vnet net_dest dest_router inport_dirn rnd m
  = Ret ((port, hub), m') ->
  port <> -1
  /\ (hub <> -1 -> routing_algorithm = CUSTOM_ /\ dest_router <> my_id)
  /\ (m' <> m ->
        (routing_algorithm = XY_ \/ routing_algorithm = CUSTOM_)
        /\ dest_router <> my_id).
Proof.
  unfold outportCompute.
  destruct (Z.eqb_spec dest_router my_id) as [Heq|Hne].
  - destruct (lookupRoutingTable _ _ _ _ _ _ net_dest vnet rnd) as [p|f] eqn:Hlook;
      [|discriminate].
    apply lookup_nonneg in Hlook. simpl. intros [= <- <- <-].
    split; [lia|]. split; intros Habs; by destruct Habs.
  - destruct routing_algorithm.
    + destruct (lookupRoutingTable _ _ _ _ _ _ net_dest vnet rnd) as [p|f];
        [|discriminate].
      simpl. destruct (Z.eqb_spec p (-1)); [discriminate|]. simpl.
      intros [= <- <- <-]. split; [done|]. split; intros Habs; by destruct Habs.
    + destruct (outportComputeXY _ _ _ _ _ _) as [[p m1]|f]; [|discriminate].
      simpl. destruct (Z.eqb_spec p (-1)); [discriminate|]. simpl.
      intros [= <- <- <-]. split; [done|].
      split; [intros Habs; by destruct Habs | intros _; split; [by left | done]].
    + destruct (outportComputeCustom _ _ _ _ _ _ _) as [[[p h] m1]|f];
        [|discriminate].
      simpl. destruct (Z.eqb_spec p (-1)); [discriminate|]. simpl.
      intros [= <- <- <-]. split; [done|].
      split; [done | intros _; split; [by right | done]].
    + destruct (lookupRoutingTable _ _ _ _ _ _ net_dest vnet rnd) as [p|f];
        [|discriminate].
      simpl. destruct (Z.eqb_spec p (-1)); [discriminate|]. simpl.
      intros [= <- <- <-]. split; [done|]. split; intros Habs; by destruct Habs.
Qed.

End DispatchFacts.

(** ** Meshes on which every hop count fits an [int] *)

Lemma in_mesh_coords (num_rows num_cols id : Z) :
  0 < num_cols -> in_mesh num_rows num_cols id ->
  0 <= Z.rem id num_cols < num_cols /\ 0 <= Z.quot id num_cols < num_rows.
Proof.
  intros Hc [H0 H1]. rewrite Z.rem_mod_nonneg, Z.quot_div_nonneg by lia.
  pose proof (Z.mod_pos_bound id num_cols Hc).
  pose proof (Z.div_pos id num_cols H0 Hc).
  assert (id / num_cols < num_rows) by (apply Z.div_lt_upper_bound; lia).
  lia.
Qed.

Lemma calculateHops_in_mesh (num_rows num_cols a b : Z) :
  0 < num_cols -> in_mesh num_rows num_cols a -> in_mesh num_rows num_cols b ->
  calculateHops num_cols a b <= num_rows + num_cols - 2.
Proof.
  intros Hc Ha Hb. unfold calculateHops.
  pose proof (in_mesh_coords _ _ _ Hc Ha). pose proof (in_mesh_coords _ _ _ Hc Hb).
  lia.
Qed.

(** When the mesh has at most [INT_MAX] routers and twice its rows plus
    columns stay within [INT_MAX], every call between routers of the mesh,
    over a mapping that names routers of the mesh, has hop counts that fit
    an [int]. *)
Lemma hops_fit_int_in_mesh
    (num_rows num_cols my_id dest_id : Z) (hybrid_connections : list (Z * list Z)) :
  0 < num_cols ->
  num_rows * num_cols <= INT_MAX ->
  2 * (num_rows + num_cols) <= INT_MAX ->
  in_mesh num_rows num_cols my_id -> in_mesh num_rows num_cols dest_id ->
  (forall entry, In entry hybrid_connections ->
     in_mesh num_rows num_cols (fst entry)
     /\ forall h, In h (snd entry) -> in_mesh num_rows num_cols h) ->
  hops_fit_int num_cols my_id dest_id hybrid_connections.
Proof.
  intros Hc Hsize Hsum Hmy Hdest Hhc.
  assert (Hvalid : forall id, in_mesh num_rows num_cols id -> valid_id id).
  { intros id [H0 H1]. unfold valid_id. lia. }
  split; [by apply Hvalid|]. split; [by apply Hvalid|]. split.
  - intros entry He. apply Hvalid. by apply Hhc.
  - intros p (entry & He & Hk & Hh)%all_pairs_entry.
    destruct (Hhc entry He) as [Hkey Hexits]. specialize (Hexits _ Hh).
    split; [by apply Hvalid|]. unfold wireless_path_hops. rewrite <- Hk.
    pose proof (calculateHops_in_mesh num_rows num_cols my_id (fst entry) Hc Hmy Hkey).
    pose proof (calculateHops_in_mesh num_rows num_cols (snd p) dest_id Hc Hexits Hdest).
    lia.
Qed.

(** ** The further properties at concrete inputs *)

Lemma lookup_total_witness :
  lookupRoutingTable Z mask_intersects 10000 (fun _ => false)
    [[1; 3; 2]] [7; 5; 5] 2 0 7 = Halt NoRouteExists
  \/ exists p,
       lookupRoutingTable Z mask_intersects 10000 (fun _ => false)
         [[1; 3; 2]] [7; 5; 5] 2 0 7 = Ret (Z.of_nat p)
       /\ (p < length [1; 3; 2]%Z)%nat.
Proof.
  apply (lookup_total Z mask_intersects 10000 (fun _ => false)
           [[1; 3; 2]] [7; 5; 5] 2 0 [1; 3; 2] 7).
  - lia.
  - reflexivity.
  - simpl. lia.
  - lia.
Defined.

Lemma lookup_unordered_reaches_every_tie_witness :
  exists rnd,
    0 <= rnd
    /\ lookupRoutingTable Z mask_intersects 10000 (fun _ => false)
         [[1; 3; 2]] [7; 5; 5] 2 0 rnd = Ret (Z.of_nat 2).
Proof.
  apply (lookup_unordered_reaches_every_tie Z mask_intersects 10000
           (fun _ => false) [[1; 3; 2]] [7; 5; 5] 2 0 [1; 3; 2] 2%nat 5).
  - reflexivity.
  - lia.
  - reflexivity.
  - simpl. lia.
  - split.
    + exists 2. repeat split.
    + intros q wq (e & Hq & Hie & Hw).
      destruct q as [|[|[|q]]]; simpl in Hq, Hw; try discriminate;
        injection Hw as <-; injection Hq as <-; try lia; discriminate.
  - lia.
Defined.

Lemma lookup_ignores_unrelated_link_witness :
  lookupRoutingTable Z mask_intersects 10000 (fun _ => false)
    (addRoute Z [[1; 3]] [4]) (addWeight [7; 5] 1) 2 0 3
  = lookupRoutingTable Z mask_intersects 10000 (fun _ => false)
      [[1; 3]] [7; 5] 2 0 3.
Proof.
  apply (lookup_ignores_unrelated_link Z mask_intersects 10000 (fun _ => false)
           [[1; 3]] [7; 5] [4] 1 2 0 [1; 3] 4 3).
  - lia.
  - reflexivity.
  - simpl. lia.
  - reflexivity.
  - reflexivity.
Defined.

Lemma addRoute_addWeight_cover_witness :
  Forall (fun row => (length row <= length (addWeight [7; 5]%Z 1%Z))%nat)
    (addRoute Z [[1; 3]] [4; 4])
  /\ length (addRoute Z [[1; 3]] [4; 4]) = 2%nat.
Proof.
  destruct (addRoute_addWeight_cover Z [[1; 3]] [7; 5] [4; 4] 1) as (Hcov & Hlen & _).
  - repeat constructor.
  - split; [exact Hcov | exact Hlen].
Defined.

Lemma lighter_link_takes_over_witness :
  lookupRoutingTable Z mask_intersects 10000 (fun _ => false)
    (addRoute Z [[1; 3]] [2]) (addWeight [7; 5] 1) 2 0 3
  = Ret 2.
Proof.
  apply (lighter_link_takes_over Z mask_intersects 10000 (fun _ => false)
           [[1; 3]] [7; 5] [2] 1 2 0 [1; 3] 2 3).
  - lia.
  - reflexivity.
  - reflexivity.
  - reflexivity.
  - reflexivity.
  - lia.
  - intros q wq (e & Hq & Hie & Hw).
    destruct q as [|[|q]]; simpl in Hq, Hw; try discriminate;
      injection Hw as <-; injection Hq as <-; try lia; discriminate.
Defined.

Lemma addDirection_keeps_inverse_witness :
  inverse_maps (addOutDirection_maps (∅, ∅) "East" 1)
  /\ fst (addOutDirection_maps (∅, ∅) "East" 1) !! "East"%string = Some 1
  /\ snd (addOutDirection_maps (∅, ∅) "East" 1) !! 1 = Some "East"%string.
Proof.
  destruct (addDirection_keeps_inverse (∅, ∅) "East" 1) as (H1 & H2 & H3 & _).
  - intros d i. simpl. rewrite !lookup_empty. split; discriminate.
  - reflexivity.
  - reflexivity.
  - split; [exact H1|]. split; [exact H2 | exact H3].
Defined.

Lemma addOutDirection_again_leaves_stale_index_witness :
  snd (addOutDirection_maps (addOutDirection_maps (∅, ∅) "East" 1) "East" 2) !! 1
  = Some "East"%string
  /\ ~ inverse_maps
         (addOutDirection_maps (addOutDirection_maps (∅, ∅) "East" 1) "East" 2).
Proof.
  destruct (addOutDirection_again_leaves_stale_index
              (addOutDirection_maps (∅, ∅) "East" 1) "East" 1 2
              (inverse_maps_first "East" 1))
    as (_ & Hstale & Hnot).
  - reflexivity.
  - lia.
  - split; [exact Hstale | exact Hnot].
Defined.

Lemma wireless_out_dirn_distinct_witness :
  wireless_out_dirn 18 <> wireless_out_dirn 21
  /\ ~ In (wireless_out_dirn 18)
         ["East"; "West"; "North"; "South"; "Local"; "Unknown"]%string.
Proof. apply (wireless_out_dirn_distinct 18 21). lia. Defined.

Lemma xy_outcome_witness :
  outportComputeXY 8 8 0 63 "Local" sample_ports = Ret (1, sample_ports)
  /\ outportComputeXY 8 8 0 63 "Local" sample_ports <> Halt Panic.
Proof.
  apply (xy_outcome 8 8 0 63 "Local" sample_ports);
    unfold valid_id, INT_MAX; lia.
Defined.

Lemma xy_after_registration_witness :
  outportComputeXY 8 8 0 1 "Local" (addOutDirection sample_ports "East" 7)
  = Ret (7, addOutDirection sample_ports "East" 7).
Proof.
  destruct (xy_after_registration 8 8 0 1 "Local" sample_ports "East" 7 "East")
    as [Hsame _].
  - reflexivity.
  - apply Hsame. reflexivity.
Defined.

Lemma routing_call_repeated_witness :
  outportComputeCustom 8 8 21 sample_links 50 "Local"
    (<["Wireless_Out18"%string := 0]> sample_ports)
  = Ret ((0, 18), <["Wireless_Out18"%string := 0]> sample_ports).
Proof.
  apply (routing_call_repeated 8 8 21 sample_links 50 "Local" sample_ports).
  reflexivity.
Defined.

Lemma calculateHops_metric_witness :
  0 <= calculateHops 8 0 9
  /\ calculateHops 8 0 9 = calculateHops 8 9 0
  /\ (calculateHops 8 0 9 = 0 <-> 0 = 9)
  /\ calculateHops 8 0 63 <= calculateHops 8 0 9 + calculateHops 8 9 63.
Proof. apply (calculateHops_metric 8 0 9 63). lia. Defined.

Lemma no_shortcut_within_one_hop_witness :
  outportComputeCustom 8 8 18 full_links 19 "Local" sample_ports
  = wired_route 8 8 18 19 "Local" sample_ports.
Proof.
  apply (no_shortcut_within_one_hop 8 8 18 full_links 19 "Local" sample_ports).
  - lia.
  - hops_fit_by_computation.
  - vm_compute. discriminate.
Defined.

Lemma no_links_means_wired_witness :
  outportComputeCustom 8 8 0 [(18, [])] 63 "Local" sample_ports
  = wired_route 8 8 0 63 "Local" sample_ports.
Proof.
  apply (no_links_means_wired 8 8 0 [(18, [])] 63 "Local" sample_ports).
  - lia.
  - unfold valid_id, INT_MAX. lia.
  - unfold valid_id, INT_MAX. lia.
  - reflexivity.
Defined.

Lemma shortcut_hub_is_configured_witness :
  45 = -1 \/ exists entry, In entry full_links /\ In 45 (snd entry).
Proof.
  apply (shortcut_hub_is_configured 8 8 0 full_links 63 "Local" sample_ports
           sample_ports 1 45).
  reflexivity.
Defined.

Lemma hybrid_search_keeps_first_minimum_witness :
  exists l1 p l2,
    all_pairs full_links = l1 ++ p :: l2
    /\ hybrid_search 8 0 full_links 63
       = Search (wireless_path_hops 8 0 63 p) (fst p) (snd p)
    /\ (forall y, In y l1 ->
          wireless_path_hops 8 0 63 p < wireless_path_hops 8 0 63 y)
    /\ (forall y, In y l2 ->
          wireless_path_hops 8 0 63 p <= wireless_path_hops 8 0 63 y).
Proof.
  destruct (hybrid_search_keeps_first_minimum 8 0 full_links 63) as [_ Hfirst].
  - lia.
  - hops_fit_by_computation.
  - vm_compute. reflexivity.
  - apply Hfirst. reflexivity.
Defined.

Lemma hub_takes_own_egress_witness :
  exists h,
    In h (connections_index sample_links 21)
    /\ (forall h', In h' (connections_index sample_links 21) ->
          egress_hops 8 50 h <= egress_hops 8 50 h')
    /\ egress_hops 8 50 h < calculateHops 8 21 50
    /\ outportComputeCustom 8 8 21 sample_links 50 "Local" sample_ports
       = Ret ((fst (dirn2idx_index sample_ports (wireless_out_dirn h)), h),
              snd (dirn2idx_index sample_ports (wireless_out_dirn h)))
    /\ (forall idx, sample_ports !! wireless_out_dirn h = Some idx ->
          outportComputeCustom 8 8 21 sample_links 50 "Local" sample_ports
          = Ret ((idx, h), sample_ports)).
Proof.
  apply (hub_takes_own_egress 8 8 21 sample_links 50 "Local" sample_ports).
  - lia.
  - hops_fit_by_computation.
  - reflexivity.
  - vm_compute. reflexivity.
Defined.

Lemma xy_walk_reaches_destination_witness :
  xy_walk 14 8 8 0 63 "Local"
  = Ret (63, repeat "East"%string 7 ++ repeat "North"%string 7).
Proof.
  apply (xy_walk_reaches_destination 8 8 0 63 14).
  - lia.
  - lia.
  - unfold in_mesh. lia.
  - unfold in_mesh. lia.
  - vm_compute. discriminate.
Defined.

Lemma outportCompute_by_table_witness :
  outportCompute Z mask_intersects 10000 (fun _ => true) [[1; 3; 2]] [7; 5; 5]
    8 8 21 CUSTOM_ sample_links 0 2 21 "West" 0 sample_ports
  = (outport <- lookupRoutingTable Z mask_intersects 10000 (fun _ => true)
                  [[1; 3; 2]] [7; 5; 5] 2 0 0 ;;
     Ret ((outport, -1), sample_ports)).
Proof.
  apply (outportCompute_by_table Z mask_intersects 10000 (fun _ => true)
           [[1; 3; 2]] [7; 5; 5] 8 8 21 CUSTOM_ sample_links 0 2 21 "West" 0
           sample_ports).
  left. reflexivity.
Defined.

Lemma outportCompute_postcondition_witness :
  0 <> -1
  /\ (18 <> -1 -> CUSTOM_ = CUSTOM_ /\ 50 <> 21)
  /\ (<["Wireless_Out18"%string := 0]> sample_ports <> sample_ports ->
        (CUSTOM_ = XY_ \/ CUSTOM_ = CUSTOM_) /\ 50 <> 21).
Proof.
  apply (outportCompute_postcondition Z mask_intersects 10000 (fun _ => true)
           [[1]] [1] 8 8 21 CUSTOM_ sample_links 0 1 50 "Local" 0 sample_ports
           (<["Wireless_Out18"%string := 0]> sample_ports) 0 18).
  reflexivity.
Defined.
